(** * Ascend prestart hook: argument validation, setup pipeline and DCMI loader

    A shallow embedding of [cli/src/main.c] (the hook's command line
    front end and its setup sequence) and of
    [runtime/dcmi/dcmi_interface_api.h] (the dynamically bound vendor
    interface), together with the properties of the specification that
    concern them.

    Conventions.
    - C integers are [Z]; every conversion to a narrower type is written
      out ([to_int], [to_uint]).  The data model is LP64, the one of the
      64-bit Linux hosts the hook runs on: [int] has 32 bits, [long] and
      [unsigned long] have 64.
    - A C string is a [string] holding the bytes before the terminator.
      The [devices] field of [CmdArgs] is kept as the raw contents of its
      array, because [strtok_s] writes terminators into it; [cstr] gives
      the C string a raw array holds.
    - Library calls and the functions of the repository that live in
      other translation units ([ns.c], [u_mount.c], [cgrp.c], [utils.c])
      are answered by an [Env] record; what they do to the process is
      recorded in a [World]. *)

From Stdlib Require Import ZArith Lia Bool Ascii.
From stdpp Require Import base list strings.

Local Open Scope string_scope.
Local Open Scope Z_scope.

(** ** Integer types of the LP64 data model *)

Module CInt.

Definition INT_MAX : Z := 2 ^ 31 - 1.
Definition INT_MIN : Z := - 2 ^ 31.
Definition UINT_MAX : Z := 2 ^ 32 - 1.
Definition LONG_MAX : Z := 2 ^ 63 - 1.
Definition LONG_MIN : Z := - 2 ^ 63.
Definition ULONG_MAX : Z := 2 ^ 64 - 1.

(** Conversion of an integer value to [int]: reduction modulo [2^32]
    into the signed range (what gcc and clang do for a [long] that
    does not fit). *)
Definition to_int (x : Z) : Z := (x + 2 ^ 31) mod 2 ^ 32 - 2 ^ 31.

(** Conversion to [unsigned int]: reduction modulo [2^32]. *)
Definition to_uint (x : Z) : Z := x mod 2 ^ 32.

(** Conversion to [unsigned long]: reduction modulo [2^64]. *)
Definition to_ulong (x : Z) : Z := x mod 2 ^ 64.

End CInt.
Export CInt.

(** ** The C library and securec functions the program calls *)

Module LibC.

(** [PATH_MAX] of [<limits.h>] on Linux. *)
Definition PATH_MAX : nat := 4096.

Definition NUL : ascii := Ascii.ascii_of_nat 0.
Definition ERANGE : Z := 34.
Definition ENOENT : Z := 2.

(** [isdigit]: the ten decimal digits. *)
Definition isdigit (c : ascii) : bool :=
  let n := Ascii.nat_of_ascii c in (Nat.leb 48 n && Nat.leb n 57)%bool.

(** [isspace] in the C locale. *)
Definition isspace (c : ascii) : bool :=
  let n := Ascii.nat_of_ascii c in (Nat.eqb n 32 || (Nat.leb 9 n && Nat.leb n 13))%bool.

Definition digit_value (c : ascii) : Z := Z.of_nat (Ascii.nat_of_ascii c) - 48.

(** The C string held by an array whose raw contents are [buf]: the
    bytes before the first terminator. *)
Fixpoint cstr (buf : string) : string :=
  match buf with
  | EmptyString => EmptyString
  | String c buf' => if Ascii.eqb c NUL then EmptyString else String c (cstr buf')
  end.

Definition strlen (s : string) : nat := String.length s.

(** [strcmp(a, b) == 0] on C strings. *)
Definition streq (a b : string) : bool := String.eqb a b.

Fixpoint string_drop (n : nat) (s : string) : string :=
  match n, s with
  | O, _ => s
  | S n', String _ s' => string_drop n' s'
  | S _, EmptyString => EmptyString
  end.

Fixpoint string_forallb (p : ascii -> bool) (s : string) : bool :=
  match s with
  | EmptyString => true
  | String c s' => p c && string_forallb p s'
  end.

(** The subject sequence of [strtol]/[strtoul] in base 10: leading
    white space, an optional sign, then the longest run of digits. *)
Fixpoint skip_space (s : string) : string :=
  match s with
  | String c s' => if isspace c then skip_space s' else s
  | EmptyString => EmptyString
  end.

Definition take_sign (s : string) : bool * string :=
  match s with
  | String "-" s' => (true, s')
  | String "+" s' => (false, s')
  | _ => (false, s)
  end.

Fixpoint digits_value (acc : Z) (s : string) : Z :=
  match s with
  | String c s' => if isdigit c then digits_value (acc * 10 + digit_value c) s' else acc
  | EmptyString => acc
  end.

(** The mathematical value denoted by the subject sequence ([0] when
    there are no digits). *)
Definition numeral_value (s : string) : Z :=
  let '(neg, body) := take_sign (skip_space s) in
  let m := digits_value 0 body in
  if neg then - m else m.

(** [strtol(s, NULL, 10)]: the value, saturated to the range of
    [long], and whether [errno] was set to [ERANGE].  [errno] is left
    alone otherwise. *)
Definition strtol (s : string) : Z * bool :=
  let v := numeral_value s in
  if LONG_MAX <? v then (LONG_MAX, true)
  else if v <? LONG_MIN then (LONG_MIN, true)
  else (v, false).

(** [strtoul(s, NULL, 10)]: a magnitude above [ULONG_MAX] gives
    [ULONG_MAX] and [ERANGE]; a minus sign negates in the unsigned
    type. *)
Definition strtoul (s : string) : Z * bool :=
  let '(neg, body) := take_sign (skip_space s) in
  let m := digits_value 0 body in
  if ULONG_MAX <? m then (ULONG_MAX, true)
  else (if neg then to_ulong (- m) else m, false).

(** [strcpy_s(dest, destMax, src)] of securec: succeeds exactly when
    [src] and its terminator fit in [destMax] bytes; [Some src] is the
    C string [dest] then holds.  On failure [dest] is left holding the
    empty string. *)
Definition strcpy_s (destMax : nat) (src : string) : option string :=
  if Nat.ltb (strlen src) destMax then Some src else None.

(** The raw contents of an array after a successful [strcpy_s]: [src],
    its terminator, and whatever the array held beyond. *)
Definition poke_cstr (src old : string) : string :=
  src +:+ String NUL (string_drop (S (strlen src)) old).

End LibC.
Export LibC.

(** ** [strtok_s] and [fgets] *)

Module Tokenizer.

(** Membership of a byte in the delimiter string. *)
Fixpoint is_delim (sep : string) (c : ascii) : bool :=
  match sep with
  | EmptyString => false
  | String d sep' => Ascii.eqb d c || is_delim sep' c
  end.

(** Skipping the delimiters in front of a token: the delimiters passed
    over and the bytes from the start of the token on. *)
Fixpoint find_begin (sep s : string) : string * string :=
  match s with
  | EmptyString => (EmptyString, EmptyString)
  | String c s' =>
      if Ascii.eqb c NUL then (EmptyString, s)
      else if is_delim sep c then
        let '(skipped, r) := find_begin sep s' in (String c skipped, r)
      else (EmptyString, s)
  end.

(** Scanning a token: the token, the bytes the scanned region holds
    afterwards (the delimiter that ends the token has been overwritten
    with a terminator), and the bytes after the scanned region. *)
Fixpoint find_rest (sep s : string) : string * string * string :=
  match s with
  | EmptyString => (EmptyString, EmptyString, EmptyString)
  | String c s' =>
      if Ascii.eqb c NUL then (EmptyString, EmptyString, s)
      else if is_delim sep c then (EmptyString, String NUL EmptyString, s')
      else let '(tok, mem, r) := find_rest sep s' in (String c tok, String c mem, r)
  end.

(** One call of [strtok_s].  The array is split at the saved context:
    [before] are its bytes in front of the context, [ctx] the bytes
    from it on.  The result is the token ([None] for a null pointer)
    and the array split at the new context. *)
Definition strtok_s (sep before ctx : string) : option string * string * string :=
  let '(skipped, b) := find_begin sep ctx in
  let '(tok, mem, r) := find_rest sep b in
  (match tok with EmptyString => None | _ => Some tok end,
   before +:+ skipped +:+ mem, r).

Fixpoint string_take (n : nat) (s : string) : string :=
  match n, s with
  | S n', String c s' => String c (string_take n' s')
  | _, _ => EmptyString
  end.

(** The line [fgets(buff, size, f)] stores for a stream positioned at
    the start of [content]: bytes up to and including the first
    newline, at most [size - 1] of them; [None] at end of file. *)
Fixpoint line_of (fuel : nat) (content : string) : string :=
  match fuel, content with
  | S fuel', String c rest =>
      if Ascii.eqb c "010" then String c EmptyString
      else String c (line_of fuel' rest)
  | _, _ => EmptyString
  end.

Definition fgets (size : nat) (content : string) : option string :=
  match content with
  | EmptyString => None
  | _ => Some (line_of (size - 1) content)
  end.

(** [if (strlen(buff) > 0 && buff[strlen(buff) - 1] == '\n') buff[strlen(buff) - 1] = '\0'] *)
Fixpoint chomp (buff : string) : string :=
  match buff with
  | EmptyString => EmptyString
  | String c EmptyString => if Ascii.eqb c "010" then EmptyString else buff
  | String c rest => String c (chomp rest)
  end.

End Tokenizer.
Export Tokenizer.

(** ** The DCMI wrapper interface of [dcmi_interface_api.h] *)

Module Dcmi.

Definition SO_NOT_FOUND : Z := -99999.
Definition FUNCTION_NOT_FOUND : Z := -99998.
Definition SUCCESS : Z := 0.
Definition ERROR_UNKNOWN : Z := -99997.
Definition SO_NOT_CORRECT : Z := -99996.

(** A function of the vendor library, applied to the words of its
    actual arguments (integers, and addresses for the pointer
    arguments); the result is its [int] return value. *)
Definition vendor_fn : Type := list Z -> Z.

(** What a call does: it returns a value, or it goes through a null
    function pointer. *)
Inductive outcome :=
  | Returned (v : Z)
  | Crashed.

(** The globals of the header: the handle and the seven function
    pointers, [None] for a null pointer. *)
Record State := mkState {
  dcmiHandle : option Z;
  dcmi_init_func : option vendor_fn;
  dcmi_get_card_num_list_func : option vendor_fn;
  dcmi_get_device_num_in_card_func : option vendor_fn;
  dcmi_get_device_logic_id_func : option vendor_fn;
  dcmi_create_vdevice_func : option vendor_fn;
  dcmi_set_destroy_vdevice_func : option vendor_fn;
  dcmi_get_device_logicid_from_phyid_func : option vendor_fn
}.

(** Objects with static storage duration start out as null pointers. *)
Definition state0 : State := mkState None None None None None None None None.

(** A call through a function pointer. *)
Definition call_through (f : option vendor_fn) (actuals : list Z) : outcome :=
  match f with
  | Some g => Returned (g actuals)
  | None => Crashed
  end.

(** [#define CALL_FUNC(name, ...) if (name##_func == NULL) {return FUNCTION_NOT_FOUND;} return name##_func(__VA_ARGS__)] *)
Definition is_null (f : option vendor_fn) : bool :=
  match f with
  | None => true
  | Some _ => false
  end.

Definition CALL_FUNC (name_func : option vendor_fn) (actuals : list Z) : outcome :=
  if is_null name_func then Returned FUNCTION_NOT_FOUND
  else call_through name_func actuals.

Definition dcmi_init (st : State) : outcome :=
  CALL_FUNC (dcmi_init_func st) [].

Definition dcmi_get_card_num_list (st : State) (card_num card_list list_length : Z) : outcome :=
  CALL_FUNC (dcmi_get_card_num_list_func st) [card_num; card_list; list_length].

Definition dcmi_get_device_num_in_card (st : State) (card_id device_num : Z) : outcome :=
  CALL_FUNC (dcmi_get_device_num_in_card_func st) [card_id; device_num].

Definition dcmi_get_device_logic_id (st : State) (device_logic_id card_id device_id : Z) : outcome :=
  CALL_FUNC (dcmi_get_device_logic_id_func st) [device_logic_id; card_id; device_id].

Definition dcmi_create_vdevice (st : State) (card_id device_id vdev out : Z) : outcome :=
  CALL_FUNC (dcmi_create_vdevice_func st) [card_id; device_id; vdev; out].

Definition dcmi_set_destroy_vdevice (st : State) (card_id device_id VDevid : Z) : outcome :=
  CALL_FUNC (dcmi_set_destroy_vdevice_func st) [card_id; device_id; VDevid].

Definition dcmi_get_device_logicid_from_phyid (st : State) (phyid logicid : Z) : outcome :=
  CALL_FUNC (dcmi_get_device_logicid_from_phyid_func st) [phyid; logicid].

(** The dynamic loader: [dlopen] gives a handle or a null pointer,
    [dlinfo] its return value and the [l_name] of the link map, [dlsym]
    a function or a null pointer. *)
Record Loader := mkLoader {
  dlopen : string -> option Z;
  dlinfo : Z -> Z * string;
  dlsym : Z -> string -> option vendor_fn
}.

(** [dcmiInit_dl]: the return value, the globals afterwards, and the
    bytes stored in [dl_path] (at most [PATH_MAX], without a
    terminator). *)
Definition dcmiInit_dl (ld : Loader) (st : State) : Z * State * string :=
  match dlopen ld "libdcmi.so" with
  | None =>
      (SO_NOT_FOUND,
       mkState None (dcmi_init_func st) (dcmi_get_card_num_list_func st)
               (dcmi_get_device_num_in_card_func st) (dcmi_get_device_logic_id_func st)
               (dcmi_create_vdevice_func st) (dcmi_set_destroy_vdevice_func st)
               (dcmi_get_device_logicid_from_phyid_func st),
       EmptyString)
  | Some h =>
      let '(ret, l_name) := dlinfo ld h in
      if negb (ret =? 0) then
        (SO_NOT_CORRECT,
         mkState (Some h) (dcmi_init_func st) (dcmi_get_card_num_list_func st)
                 (dcmi_get_device_num_in_card_func st) (dcmi_get_device_logic_id_func st)
                 (dcmi_create_vdevice_func st) (dcmi_set_destroy_vdevice_func st)
                 (dcmi_get_device_logicid_from_phyid_func st),
         EmptyString)
      else
        (SUCCESS,
         mkState (Some h)
                 (dlsym ld h "dcmi_init")
                 (dlsym ld h "dcmi_get_card_num_list")
                 (dlsym ld h "dcmi_get_device_num_in_card")
                 (dlsym ld h "dcmi_get_device_logic_id")
                 (dlsym ld h "dcmi_create_vdevice")
                 (dlsym ld h "dcmi_set_destroy_vdevice")
                 (dlsym ld h "dcmi_get_device_logicid_from_phyid"),
         string_take PATH_MAX l_name)
  end.

(** The wrappers as one interface: which wrapper is called, and with
    which argument words. *)
Inductive wrapper :=
  | W_init
  | W_get_card_num_list
  | W_get_device_num_in_card
  | W_get_device_logic_id
  | W_create_vdevice
  | W_set_destroy_vdevice
  | W_get_device_logicid_from_phyid.

Definition symbol (w : wrapper) : string :=
  match w with
  | W_init => "dcmi_init"
  | W_get_card_num_list => "dcmi_get_card_num_list"
  | W_get_device_num_in_card => "dcmi_get_device_num_in_card"
  | W_get_device_logic_id => "dcmi_get_device_logic_id"
  | W_create_vdevice => "dcmi_create_vdevice"
  | W_set_destroy_vdevice => "dcmi_set_destroy_vdevice"
  | W_get_device_logicid_from_phyid => "dcmi_get_device_logicid_from_phyid"
  end.

Definition pointer_of (w : wrapper) (st : State) : option vendor_fn :=
  match w with
  | W_init => dcmi_init_func st
  | W_get_card_num_list => dcmi_get_card_num_list_func st
  | W_get_device_num_in_card => dcmi_get_device_num_in_card_func st
  | W_get_device_logic_id => dcmi_get_device_logic_id_func st
  | W_create_vdevice => dcmi_create_vdevice_func st
  | W_set_destroy_vdevice => dcmi_set_destroy_vdevice_func st
  | W_get_device_logicid_from_phyid => dcmi_get_device_logicid_from_phyid_func st
  end.

(** Actual arguments of a wrapper: [a], [b], [c], [d] in order, as many
    as the wrapper takes. *)
Definition call (w : wrapper) (st : State) (a b c d : Z) : outcome :=
  match w with
  | W_init => dcmi_init st
  | W_get_card_num_list => dcmi_get_card_num_list st a b c
  | W_get_device_num_in_card => dcmi_get_device_num_in_card st a b
  | W_get_device_logic_id => dcmi_get_device_logic_id st a b c
  | W_create_vdevice => dcmi_create_vdevice st a b c d
  | W_set_destroy_vdevice => dcmi_set_destroy_vdevice st a b c
  | W_get_device_logicid_from_phyid => dcmi_get_device_logicid_from_phyid st a b
  end.

(** Sample loaders: the library is absent; the library is present but
    lacks [dcmi_create_vdevice], every other function returning [0]. *)
Definition ld_absent : Loader :=
  mkLoader (fun _ => None) (fun _ => (0, EmptyString)) (fun _ _ => None).

Definition ld_partial : Loader :=
  mkLoader (fun _ => Some 1)
           (fun _ => (0, "/usr/local/dcmi/libdcmi.so"))
           (fun _ name => if String.eqb name "dcmi_create_vdevice" then None
                          else Some (fun _ => 0)).

(** [dcmiShutDown].  [dlclose] is the loader's answer for a handle; the
    result is the return value and the handle [dlclose] was called on,
    if it was called.  The globals are not written. *)
Definition dcmiShutDown (dlclose : Z -> Z) (st : State) : Z * option Z :=
  match dcmiHandle st with
  | None => (SUCCESS, None)
  | Some h => (if negb (dlclose h =? 0) then ERROR_UNKNOWN else SUCCESS, Some h)
  end.

(** The argument words a wrapper passes on, of the four given to
    [call]. *)
Definition actuals (w : wrapper) (a b c d : Z) : list Z :=
  match w with
  | W_init => []
  | W_get_card_num_list => [a; b; c]
  | W_get_device_num_in_card => [a; b]
  | W_get_device_logic_id => [a; b; c]
  | W_create_vdevice => [a; b; c; d]
  | W_set_destroy_vdevice => [a; b; c]
  | W_get_device_logicid_from_phyid => [a; b]
  end.


End Dcmi.

(** ** Data of the command line front end *)

(** [struct MountList]: a counter and an array of [MAX_MOUNT_NR] paths. *)
Record MountList := mkMountList {
  count : nat;
  paths : list string
}.

(** [struct CmdArgs].  [devices] holds the raw bytes of the array. *)
Record CmdArgs := mkCmdArgs {
  devices : string;
  rootfs : string;
  pid : Z;
  options : string;
  files : MountList;
  dirs : MountList
}.

(** [struct ParsedConfig].  [files] and [dirs] of the C structure point
    into the [CmdArgs]; [files_set] and [dirs_set] record that the
    pointers have been assigned. *)
Record ParsedConfig := mkParsedConfig {
  cfg_rootfs : string;
  cfg_devices : list Z;
  devicesNr : nat;
  containerNsPath : string;
  cgroupPath : string;
  originNsFd : Z;
  files_set : bool;
  dirs_set : bool
}.

(** What [realpath(path, resolvedPath)] did: it returned [resolvedPath],
    which holds the canonical path, or it returned a null pointer with
    [errno] set, leaving [buf] in [resolvedPath] (glibc stores there the
    prefix of the path it could not resolve when the error is [ENOENT]
    or [EACCES]; the array was zeroed before the call). *)
Inductive realpath_result :=
  | Resolved (canonical : string)
  | Unresolved (errno : Z) (buf : string).

(** ** The environment of one invocation *)

(** Answers of the operating system and of the functions defined in the
    other translation units of the command line tool.  [errno_after_read]
    is what the calls [CheckExternalFile], [fopen], [fgets] and [fclose]
    of [PidCmdArgParser] do to the global [errno] when they all return
    successfully: the value they leave there, given the value they
    found (each of them may set it, also on success). *)
Record Env := mkEnv {
  realpath : string -> realpath_result;
  CheckExternalFile : string -> bool;
  fopen : string -> option string;
  GetNsPath : Z -> string -> option string;
  GetCgroupPath : Z -> option string;
  GetSelfNsPath : string -> option string;
  open_rdonly : string -> Z;
  EnterNsByPath : string -> Z;
  DoMounting : ParsedConfig -> MountList -> MountList -> Z;
  SetupCgroup : ParsedConfig -> MountList -> MountList -> Z;
  EnterNsByFd : Z -> Z;
  errno_after_read : Z -> Z
}.

(** ** The process as the setup sequence sees it *)

(** The mount namespace the process is a member of. *)
Inductive MntNs :=
  | CallerNs
  | TargetNs (path : string).

Inductive Event :=
  | EvOpen (path : string) (fd : Z)
  | EvEnterNsByPath (path : string) (ret : Z)
  | EvDoMounting (ret : Z)
  | EvSetupCgroup (ret : Z)
  | EvEnterNsByFd (fd : Z) (ret : Z)
  | EvClose (fd : Z).

(** [mnt_ns]: current mount namespace; [fds]: the open descriptors
    with the namespace each one refers to; [trace]: the calls made so
    far, oldest first. *)
Record World := mkWorld {
  mnt_ns : MntNs;
  fds : list (Z * MntNs);
  trace : list Event
}.

Definition M (A : Type) : Type := World -> A * World.

#[global] Instance M_ret : MRet M := fun A (a : A) w => (a, w).
#[global] Instance M_bind : MBind M := fun A B (k : A -> M B) (m : M A) w =>
  let '(a, w') := m w in k a w'.

(** ** Sample inputs *)

(** Modelled from the spec: [IsValidChar] is defined in [utils.c], which
    is not among the sources.  "Reject any character outside a
    conservative allowed set (alphanumerics, [/], [.], [_], [-])". *)
Definition IsValidChar_spec (c : ascii) : bool :=
  let n := Ascii.nat_of_ascii c in
  (Nat.leb 48 n && Nat.leb n 57) || (Nat.leb 65 n && Nat.leb n 90)
  || (Nat.leb 97 n && Nat.leb n 122)
  || Ascii.eqb c "/" || Ascii.eqb c "." || Ascii.eqb c "_" || Ascii.eqb c "-".

(** Sizes used in the examples. *)
Definition sample_BUF_SIZE : nat := 1024.
Definition sample_MAX_MOUNT_NR : nat := 512.
Definition sample_MAX_DEVICE_NR : nat := 1024.
Definition sample_WHITE_LIST_NUM : nat := 4.

(** A host on which every call succeeds: every path is canonical,
    [pid_max] reads [4194304], the descriptor opened is [3], and reading
    [pid_max] leaves [errno] as it was. *)
Definition env_ok : Env :=
  mkEnv (fun p => Resolved p)
        (fun _ => true)
        (fun _ => Some ("4194304" +:+ String "010" EmptyString))
        (fun _ _ => Some "/proc/1234/ns/mnt")
        (fun _ => Some "/sys/fs/cgroup/devices/docker/c0")
        (fun _ => Some "/proc/self/ns/mnt")
        (fun _ => 3)
        (fun _ => 0)
        (fun _ _ _ => 0)
        (fun _ _ _ => 0)
        (fun _ => 0)
        (fun e => e).

(** The same host, except that [SetupCgroup] fails. *)
Definition env_cgroup_fails : Env :=
  mkEnv (realpath env_ok) (CheckExternalFile env_ok) (fopen env_ok)
        (GetNsPath env_ok) (GetCgroupPath env_ok) (GetSelfNsPath env_ok)
        (open_rdonly env_ok) (EnterNsByPath env_ok) (DoMounting env_ok)
        (fun _ _ _ => -1)
        (EnterNsByFd env_ok) (errno_after_read env_ok).

(** A host on which no path exists yet: [realpath] fails with [ENOENT]
    at the last component and leaves the path in the buffer. *)
Definition env_enoent : Env :=
  mkEnv (fun p => Unresolved ENOENT p)
        (CheckExternalFile env_ok) (fopen env_ok)
        (GetNsPath env_ok) (GetCgroupPath env_ok) (GetSelfNsPath env_ok)
        (open_rdonly env_ok) (EnterNsByPath env_ok) (DoMounting env_ok)
        (SetupCgroup env_ok) (EnterNsByFd env_ok) (errno_after_read env_ok).

(** Options of a complete invocation with the given device string. *)
Definition sample_opts (devs : string) : list (ascii * option string) :=
  [ ("d"%char, Some devs); ("p"%char, Some "1234"); ("r"%char, Some "/rootfs") ].

(** Options of a complete invocation with the given pid argument. *)
Definition sample_pid_opts (p : string) : list (ascii * option string) :=
  [ ("d"%char, Some "0"); ("p"%char, Some p); ("r"%char, Some "/rootfs") ].

(** ** The argument parsers of [main.c] *)

Section Cli.

(** Constants of [basic.h]: sizes of the text buffers, of the mount
    lists, of the device list and of the white list. *)
Variables BUF_SIZE MAX_MOUNT_NR MAX_DEVICE_NR WHITE_LIST_NUM : nat.

(** [IsValidChar] of [utils.c]. *)
Variable IsValidChar : ascii -> bool.

Variable env : Env.

Definition set_devices (a : CmdArgs) (v : string) : CmdArgs :=
  mkCmdArgs v (rootfs a) (pid a) (options a) (files a) (dirs a).
Definition set_rootfs (a : CmdArgs) (v : string) : CmdArgs :=
  mkCmdArgs (devices a) v (pid a) (options a) (files a) (dirs a).
Definition set_pid (a : CmdArgs) (v : Z) : CmdArgs :=
  mkCmdArgs (devices a) (rootfs a) v (options a) (files a) (dirs a).
Definition set_options (a : CmdArgs) (v : string) : CmdArgs :=
  mkCmdArgs (devices a) (rootfs a) (pid a) v (files a) (dirs a).
Definition set_files (a : CmdArgs) (v : MountList) : CmdArgs :=
  mkCmdArgs (devices a) (rootfs a) (pid a) (options a) v (dirs a).
Definition set_dirs (a : CmdArgs) (v : MountList) : CmdArgs :=
  mkCmdArgs (devices a) (rootfs a) (pid a) (options a) (files a) v.

(** [struct CmdArgs args = {0}] of [Process]. *)
Definition args_zero : CmdArgs :=
  mkCmdArgs EmptyString EmptyString 0 EmptyString
    (mkMountList 0 (replicate MAX_MOUNT_NR EmptyString))
    (mkMountList 0 (replicate MAX_MOUNT_NR EmptyString)).

Definition devices_char_ok (c : ascii) : bool := isdigit c || Ascii.eqb c ",".

Definition DevicesCmdArgParser (args : CmdArgs) (arg : string) : bool * CmdArgs :=
  if negb (string_forallb devices_char_ok arg) then (false, args)
  else match strcpy_s BUF_SIZE arg with
       | None => (false, set_devices args (String NUL (string_drop 1 (devices args))))
       | Some s => (true, set_devices args (poke_cstr s (devices args)))
       end.

Definition pidMax : string := "/proc/sys/kernel/pid_max".

(** The source converts [optarg], which is the [arg] that [Process]
    passes.  [errno] is the global: it is zeroed before the first
    [strtol], which can set it, then left to the calls that read
    [pid_max], and tested at the end.  [strtol(buff)] is evaluated, and
    can set [errno], only when the pid is not negative. *)
Definition PidCmdArgParser (args : CmdArgs) (arg : string) : bool * CmdArgs :=
  (* errno = 0; args->pid = strtol(optarg, NULL, DECIMAL); *)
  let '(v, range1) := strtol arg in
  let args := set_pid args (to_int v) in
  let errno := if range1 then ERANGE else 0 in
  if negb (CheckExternalFile env pidMax) then (false, args)
  else match fopen env pidMax with
       | None => (false, args)
       | Some content =>
           match fgets PATH_MAX content with
           | None => (false, args)
           | Some line =>
               (* (void)fclose(pFile); *)
               let errno := errno_after_read env errno in
               let buff := chomp (cstr line) in
               if negb (string_forallb isdigit buff) then (false, args)
               else if pid args <? 0 then (false, args)
               else
                 let '(m, range2) := strtol buff in
                 let errno := if range2 then ERANGE else errno in
                 if m <=? pid args then (false, args)
                 else if negb (errno =? 0) then (false, args)
                 else (true, args)
           end
       end.

(** The third parameter of the source, [maxFileSzieMb], is not used by
    the function and is left out. *)
Definition CheckFileLegality (filePath : string) (filePathLen : nat) : bool :=
  if Nat.ltb PATH_MAX filePathLen || Nat.leb filePathLen 0 then false
  else if negb (string_forallb IsValidChar (string_take filePathLen filePath)) then false
  else match realpath env filePath with
       | Resolved resolvedPath => streq resolvedPath filePath
       | Unresolved errno resolvedPath =>
           if negb (errno =? ENOENT) then false
           else streq resolvedPath filePath
       end.

Definition RootfsCmdArgParser (args : CmdArgs) (arg : string) : bool * CmdArgs :=
  match strcpy_s BUF_SIZE arg with
  | None => (false, set_rootfs args EmptyString)
  | Some s =>
      let args := set_rootfs args s in
      if negb (CheckFileLegality (rootfs args) (strlen (rootfs args))) then (false, args)
      else (true, args)
  end.

Definition OptionsCmdArgParser (args : CmdArgs) (arg : string) : bool * CmdArgs :=
  match strcpy_s BUF_SIZE arg with
  | None => (false, set_options args EmptyString)
  | Some s =>
      let args := set_options args s in
      if negb (streq (options args) "NODRV,VIRTUAL")
         && negb (streq (options args) "NODRV")
         && negb (streq (options args) "VIRTUAL")
      then (false, args)
      else (true, args)
  end.

(** The initialisers of [mountWhiteList]. *)
Definition whiteListInit : list string :=
  [ "/usr/local/Ascend/driver/lib64";
    "/usr/local/Ascend/driver/include";
    "/usr/local/dcmi";
    "/usr/local/bin/npu-smi" ].

(** [mountWhiteList[WHITE_LIST_NUM][PATH_MAX]]: the rows without an
    initialiser hold the empty string. *)
Definition mountWhiteList : list string :=
  take WHITE_LIST_NUM (whiteListInit ++ replicate (WHITE_LIST_NUM - 4) EmptyString).

Definition CheckWhiteList (fileName : string) : bool :=
  let fileExists :=
    fold_left (fun found row => if streq row fileName then true else found)
              mountWhiteList false in
  if negb fileExists then false else true.

(** [char *dst = &args->files.list[args->files.count++][0]]: the slot is
    taken, and the counter advanced, before the copy and the checks. *)
Definition MountFileCmdArgParser (args : CmdArgs) (arg : string) : bool * CmdArgs :=
  if Nat.eqb (count (files args)) MAX_MOUNT_NR then (false, args)
  else
    let slot := count (files args) in
    let args := set_files args (mkMountList (count (files args) + 1) (paths (files args))) in
    match strcpy_s PATH_MAX arg with
    | None =>
        (false, set_files args (mkMountList (count (files args))
                                            (<[slot := EmptyString]> (paths (files args)))))
    | Some dst =>
        let args := set_files args (mkMountList (count (files args))
                                                (<[slot := dst]> (paths (files args)))) in
        if negb (CheckFileLegality dst (strlen dst)) then (false, args)
        else (if CheckWhiteList dst then true else false, args)
    end.

Definition MountDirCmdArgParser (args : CmdArgs) (arg : string) : bool * CmdArgs :=
  if Nat.eqb (count (dirs args)) MAX_MOUNT_NR then (false, args)
  else
    let slot := count (dirs args) in
    let args := set_dirs args (mkMountList (count (dirs args) + 1) (paths (dirs args))) in
    match strcpy_s PATH_MAX arg with
    | None =>
        (false, set_dirs args (mkMountList (count (dirs args))
                                           (<[slot := EmptyString]> (paths (dirs args)))))
    | Some dst =>
        let args := set_dirs args (mkMountList (count (dirs args))
                                               (<[slot := dst]> (paths (dirs args)))) in
        if negb (CheckFileLegality dst (strlen dst)) then (false, args)
        else (if CheckWhiteList dst then true else false, args)
    end.

Definition CmdArgParser : Type := CmdArgs -> string -> bool * CmdArgs.

Definition g_cmdArgParsers : list (ascii * CmdArgParser) :=
  [ ("d"%char, DevicesCmdArgParser);
    ("p"%char, PidCmdArgParser);
    ("r"%char, RootfsCmdArgParser);
    ("o"%char, OptionsCmdArgParser);
    ("f"%char, MountFileCmdArgParser);
    ("i"%char, MountDirCmdArgParser) ].

(** The search loop of [ParseOneCmdArg]: the first entry of the table
    whose character is the indicator. *)
Fixpoint find_parser (table : list (ascii * CmdArgParser)) (indicator : ascii)
  : option CmdArgParser :=
  match table with
  | [] => None
  | (c, parser) :: table' =>
      if Ascii.eqb c indicator then Some parser else find_parser table' indicator
  end.

(** [value] is [optarg], a null pointer when the option takes no
    argument. *)
Definition ParseOneCmdArg (args : CmdArgs) (indicator : ascii) (value : option string)
  : Z * CmdArgs :=
  match value with
  | None => (-1, args)
  | Some value =>
      match find_parser g_cmdArgParsers indicator with
      | None => (-1, args)
      | Some parser =>
          let '(isOK, args) := parser args value in
          if negb isOK then (-1, args) else (0, args)
      end
  end.

Definition IsCmdArgsValid (args : CmdArgs) : bool :=
  Nat.ltb 0 (strlen (cstr (devices args)))
  && Nat.ltb 0 (strlen (rootfs args))
  && (0 <? pid args).

(** *** Device ids *)

(** The loop of [ParseDeviceIDs].  [token] is the pointer the last
    [strtok_s] returned; [before] and [ctx] are the [devices] array
    split at the saved context.  The result is the return value, the
    id array, [*idListSize] and the bytes of [devices].  [fuel] bounds
    the number of iterations; [ParseDeviceIDs_loop_total] shows that
    the bound given by [ParseDeviceIDs] is never reached. *)
Fixpoint ParseDeviceIDs_loop (fuel : nat) (idListSize : nat) (token : option string)
    (idx : nat) (idList : list Z) (before ctx : string)
  : option (Z * list Z * nat * string) :=
  match token with
  | None => Some (0, idList, idx, before +:+ ctx)
  | Some tok =>
      match fuel with
      | O => None
      | S fuel' =>
          if Nat.leb idListSize idx then Some (-1, idList, idListSize, before +:+ ctx)
          else
            (* errno = 0; idList[idx] = strtoul(token, NULL, DECIMAL); *)
            let '(v, range) := strtoul tok in
            let idList := <[idx := to_uint v]> idList in
            if range then Some (-1, idList, idListSize, before +:+ ctx)
            else
              let '(token', before', ctx') := strtok_s "," before ctx in
              ParseDeviceIDs_loop fuel' idListSize token' (idx + 1) idList before' ctx'
      end
  end.

Definition ParseDeviceIDs (idList : list Z) (idListSize : nat) (devices : string)
  : Z * list Z * nat * string :=
  let '(token, before, ctx) := strtok_s "," EmptyString devices in
  match ParseDeviceIDs_loop (S (String.length devices)) idListSize token 0 idList before ctx with
  | Some r => r
  | None => (-1, idList, idListSize, devices)
  end.

(** *** Calls that act on the process *)

Definition emit (e : Event) : M unit :=
  fun w => (tt, mkWorld (mnt_ns w) (fds w) (trace w ++ [e])).

Fixpoint fd_lookup (fd : Z) (t : list (Z * MntNs)) : option MntNs :=
  match t with
  | [] => None
  | (fd', ns) :: t' => if fd' =? fd then Some ns else fd_lookup fd t'
  end.

Fixpoint fd_remove (fd : Z) (t : list (Z * MntNs)) : list (Z * MntNs) :=
  match t with
  | [] => []
  | (fd', ns) :: t' => if fd' =? fd then t' else (fd', ns) :: fd_remove fd t'
  end.

(** [open(path, O_RDONLY)] on the process's own namespace file: a
    descriptor that refers to the namespace the process is in. *)
Definition sys_open (path : string) : M Z := fun w =>
  let fd := open_rdonly env path in
  (fd, mkWorld (mnt_ns w)
               (if fd <? 0 then fds w else (fd, mnt_ns w) :: fds w)
               (trace w ++ [EvOpen path fd])).

Definition sys_close (fd : Z) : M unit := fun w =>
  (tt, mkWorld (mnt_ns w) (fd_remove fd (fds w)) (trace w ++ [EvClose fd])).

(** Modelled from the spec: [EnterNsByPath] is defined in [ns.c], which
    is not among the sources.  "Opens the namespace file and associates
    the calling execution context's namespace of the given kind with
    it": when the call succeeds the process is in the namespace the
    path names, when it fails the membership is as before. *)
Definition call_EnterNsByPath (path : string) : M Z := fun w =>
  let ret := EnterNsByPath env path in
  (ret, mkWorld (if ret <? 0 then mnt_ns w else TargetNs path) (fds w)
                (trace w ++ [EvEnterNsByPath path ret])).

(** Modelled from the spec: [EnterNsByFd] is defined in [ns.c].
    "Identical effect using an already-open handle": when the call
    succeeds the process is in the namespace the descriptor refers
    to. *)
Definition call_EnterNsByFd (fd : Z) : M Z := fun w =>
  let ret := EnterNsByFd env fd in
  (ret, mkWorld (if ret <? 0 then mnt_ns w
                 else match fd_lookup fd (fds w) with
                      | Some ns => ns
                      | None => mnt_ns w
                      end)
                (fds w) (trace w ++ [EvEnterNsByFd fd ret])).

Definition call_DoMounting (config : ParsedConfig) (args : CmdArgs) : M Z :=
  let ret := DoMounting env config (files args) (dirs args) in
  _ ← emit (EvDoMounting ret); mret ret.

Definition call_SetupCgroup (config : ParsedConfig) (args : CmdArgs) : M Z :=
  let ret := SetupCgroup env config (files args) (dirs args) in
  _ ← emit (EvSetupCgroup ret); mret ret.

(** *** Preparation and the setup sequence *)

(** Modelled from the spec: [InitParsedConfig] is defined in [basic.c],
    which is not among the sources.  The device list is an "ordered
    bounded list of numeric device ids (capacity N)", here
    [MAX_DEVICE_NR]; the other fields are empty and there is no
    namespace handle yet. *)
Definition InitParsedConfig : ParsedConfig :=
  mkParsedConfig EmptyString (replicate MAX_DEVICE_NR 0) MAX_DEVICE_NR
                 EmptyString EmptyString (-1) false false.

Definition with_rootfs (c : ParsedConfig) (v : string) : ParsedConfig :=
  mkParsedConfig v (cfg_devices c) (devicesNr c) (containerNsPath c) (cgroupPath c)
                 (originNsFd c) (files_set c) (dirs_set c).
Definition with_devices (c : ParsedConfig) (ids : list Z) (n : nat) : ParsedConfig :=
  mkParsedConfig (cfg_rootfs c) ids n (containerNsPath c) (cgroupPath c)
                 (originNsFd c) (files_set c) (dirs_set c).
Definition with_containerNsPath (c : ParsedConfig) (v : string) : ParsedConfig :=
  mkParsedConfig (cfg_rootfs c) (cfg_devices c) (devicesNr c) v (cgroupPath c)
                 (originNsFd c) (files_set c) (dirs_set c).
Definition with_cgroupPath (c : ParsedConfig) (v : string) : ParsedConfig :=
  mkParsedConfig (cfg_rootfs c) (cfg_devices c) (devicesNr c) (containerNsPath c) v
                 (originNsFd c) (files_set c) (dirs_set c).
Definition with_originNsFd (c : ParsedConfig) (v : Z) : ParsedConfig :=
  mkParsedConfig (cfg_rootfs c) (cfg_devices c) (devicesNr c) (containerNsPath c)
                 (cgroupPath c) v (files_set c) (dirs_set c).
Definition with_mounts (c : ParsedConfig) : ParsedConfig :=
  mkParsedConfig (cfg_rootfs c) (cfg_devices c) (devicesNr c) (containerNsPath c)
                 (cgroupPath c) (originNsFd c) true true.

(** [DoPrepare].  The [CmdArgs] are returned as well: they are passed
    through a pointer to [const], but [ParseDeviceIDs] receives
    [(char * )args->devices] and tokenizes the array in place. *)
Definition DoPrepare (args : CmdArgs) (config : ParsedConfig)
  : M (Z * CmdArgs * ParsedConfig) :=
  match strcpy_s BUF_SIZE (rootfs args) with
  | None => mret (-1, args, with_rootfs config EmptyString)
  | Some r =>
      let config := with_rootfs config r in
      let '(ret, idList, idListSize, devs) :=
        ParseDeviceIDs (cfg_devices config) (devicesNr config) (devices args) in
      let args := set_devices args devs in
      let config := with_devices config idList idListSize in
      if ret <? 0 then mret (-1, args, config)
      else
        match GetNsPath env (pid args) "mnt" with
        | None => mret (-1, args, config)
        | Some nsPath =>
            let config := with_containerNsPath config nsPath in
            match GetCgroupPath env (pid args) with
            | None => mret (-1, args, config)
            | Some cg =>
                let config := with_cgroupPath config cg in
                match GetSelfNsPath env "mnt" with
                | None => mret (-1, args, config)
                | Some originNsPath =>
                    fd ← sys_open originNsPath;
                    let config := with_originNsFd config fd in
                    if fd <? 0 then mret (-1, args, config)
                    else mret (0, args, with_mounts config)
                end
            end
        end
  end.

Definition SetupContainer (args : CmdArgs) : M (Z * CmdArgs) :=
  let config := InitParsedConfig in
  '(ret, args, config) ← DoPrepare args config;
  if ret <? 0 then mret (-1, args)
  else
    ret ← call_EnterNsByPath (containerNsPath config);
    if ret <? 0 then _ ← sys_close (originNsFd config); mret (-1, args)
    else
      ret ← call_DoMounting config args;
      if ret <? 0 then _ ← sys_close (originNsFd config); mret (-1, args)
      else
        ret ← call_SetupCgroup config args;
        if ret <? 0 then _ ← sys_close (originNsFd config); mret (-1, args)
        else
          ret ← call_EnterNsByFd (originNsFd config);
          if ret <? 0 then _ ← sys_close (originNsFd config); mret (-1, args)
          else _ ← sys_close (originNsFd config); mret (0, args).

(** The [getopt_long] loop of [Process]: [opts] are the successive
    results of [getopt_long], each with the value of [optarg]. *)
Fixpoint parse_opts (args : CmdArgs) (opts : list (ascii * option string))
  : Z * CmdArgs :=
  match opts with
  | [] => (0, args)
  | (c, optarg) :: opts' =>
      let '(ret, args) := ParseOneCmdArg args c optarg in
      if ret <? 0 then (-1, args) else parse_opts args opts'
  end.

(** [Process].  [ParseRuntimeOptions] (of [options.c]) only sets the
    option flags of that module and is left out. *)
Definition Process (opts : list (ascii * option string)) : M Z :=
  let '(ret, args) := parse_opts args_zero opts in
  if ret <? 0 then mret (-1)
  else if negb (IsCmdArgsValid args) then mret (-1)
  else
    '(ret, _) ← SetupContainer args;
    if ret <? 0 then mret ret else mret 0.

(** The process before the hook runs: in the caller's namespace, no
    descriptor of interest open, nothing called. *)
Definition world0 : World := mkWorld CallerNs [] [].

(** A namespace switch was attempted. *)
Definition is_ns_switch (e : Event) : bool :=
  match e with
  | EvEnterNsByPath _ _ | EvEnterNsByFd _ _ => true
  | _ => false
  end.

(** *** Notions used to state the properties *)

(** An append to a mount list, as both [MountFileCmdArgParser] and
    [MountDirCmdArgParser] perform it on their list
    ([MountFileCmdArgParser_append], [MountDirCmdArgParser_append]). *)
Definition mount_append (ml : MountList) (arg : string) : bool * MountList :=
  if Nat.eqb (count ml) MAX_MOUNT_NR then (false, ml)
  else
    let slot := count ml in
    match strcpy_s PATH_MAX arg with
    | None => (false, mkMountList (count ml + 1) (<[slot := EmptyString]> (paths ml)))
    | Some dst =>
        let ml := mkMountList (count ml + 1) (<[slot := dst]> (paths ml)) in
        if negb (CheckFileLegality dst (strlen dst)) then (false, ml)
        else (CheckWhiteList dst, ml)
    end.

(** The tokens [strtok_s] finds in a string of devices, in order.
    [fuel] bounds their number; the length of the string is enough
    ([tokens_from_fuel]). *)
Fixpoint tokens_from (fuel : nat) (ctx : string) : list string :=
  match fuel with
  | O => []
  | S fuel' =>
      match strtok_s "," EmptyString ctx with
      | (Some tok, _, ctx') => tok :: tokens_from fuel' ctx'
      | (None, _, _) => []
      end
  end.

Definition tokens (devs : string) : list string :=
  tokens_from (S (String.length devs)) devs.

(** The id a token is stored as. *)
Definition id_of (tok : string) : Z := to_uint (fst (strtoul tok)).

(** What the loop of [ParseDeviceIDs] does with a list of tokens: the
    return value, the id array and [*idListSize]. *)
Fixpoint store_ids (idListSize : nat) (toks : list string) (idx : nat) (idList : list Z)
  : Z * list Z * nat :=
  match toks with
  | [] => (0, idList, idx)
  | tok :: toks' =>
      if Nat.leb idListSize idx then (-1, idList, idListSize)
      else
        let idList := <[idx := id_of tok]> idList in
        if snd (strtoul tok) then (-1, idList, idListSize)
        else store_ids idListSize toks' (idx + 1) idList
  end.

(** [new] is [old] with some separators overwritten by terminators
    and nothing else changed. *)
Fixpoint cut_only (old new : string) : Prop :=
  match old, new with
  | EmptyString, EmptyString => True
  | String a old', String b new' =>
      (b = a \/ (a = ","%char /\ b = NUL)) /\ cut_only old' new'
  | _, _ => False
  end.

(** The values given with the option [c], in command line order. *)
Fixpoint opt_values (c : ascii) (opts : list (ascii * option string)) : list string :=
  match opts with
  | [] => []
  | (c', Some v) :: opts' =>
      if Ascii.eqb c' c then v :: opt_values c opts' else opt_values c opts'
  | (_, None) :: opts' => opt_values c opts'
  end.

(** Device tokens written one after the other with a comma between. *)
Fixpoint join_commas (toks : list string) : string :=
  match toks with
  | [] => EmptyString
  | tok :: toks' =>
      match toks' with
      | [] => tok
      | _ => tok +:+ String "," (join_commas toks')
      end
  end.

(** The mount lists have their [MAX_MOUNT_NR] slots and the counters
    are within them. *)
Definition mount_wf (args : CmdArgs) : Prop :=
  length (paths (files args)) = MAX_MOUNT_NR /\
  length (paths (dirs args)) = MAX_MOUNT_NR /\
  (count (files args) <= MAX_MOUNT_NR)%nat /\
  (count (dirs args) <= MAX_MOUNT_NR)%nat.

(** The calls [SetupContainer] makes once preparation has succeeded,
    given what each step returns ([e]: entering the container's
    namespace, [m]: the mounts, [c]: the cgroup configuration, [b]: the
    way back): a step is attempted only if the steps before it
    succeeded, and the descriptor is closed last. *)
Definition setup_events (fd : Z) (nsPath : string) (e m c b : Z) : list Event :=
  (EvEnterNsByPath nsPath e ::
   (if e <? 0 then []
    else EvDoMounting m ::
         (if m <? 0 then []
          else EvSetupCgroup c ::
               (if c <? 0 then [] else [EvEnterNsByFd fd b]))))
  ++ [EvClose fd].

(** The result of the sequence and the namespace it ends in. *)
Definition setup_result (e m c b : Z) : Z :=
  if (e <? 0) || (m <? 0) || (c <? 0) || (b <? 0) then -1 else 0.

Definition setup_ns (start : MntNs) (nsPath : string) (e m c b : Z) : MntNs :=
  if e <? 0 then start
  else if (m <? 0) || (c <? 0) || (b <? 0) then TargetNs nsPath
  else start.

(** Both counters are within the capacity. *)
Definition mount_inv (args : CmdArgs) : Prop :=
  (count (files args) <= MAX_MOUNT_NR)%nat /\ (count (dirs args) <= MAX_MOUNT_NR)%nat.

(** The value the pid_max source yields to [PidCmdArgParser]: [None]
    when the file fails [CheckExternalFile], cannot be opened or read,
    holds something other than digits, or holds a number that does not
    fit in [long]. *)
Definition read_pid_max : option Z :=
  if CheckExternalFile env pidMax then
    match fopen env pidMax with
    | Some content =>
        match fgets PATH_MAX content with
        | Some line =>
            let buff := chomp (cstr line) in
            if string_forallb isdigit buff then
              let '(m, range) := strtol buff in
              if range then None else Some m
            else None
        | None => None
        end
    | None => None
    end
  else None.

(** The events a computation appended to the trace contain no
    namespace switch. *)
Definition no_ns_switch (w w' : World) : Prop :=
  exists evs, trace w' = (trace w ++ evs)%list /\ forallb (fun e => negb (is_ns_switch e)) evs = true.

(** Preparation succeeded, the container's namespace was entered, the
    mounts succeeded and the cgroup configuration failed. *)
Definition cgroup_fails_after_mounts (args : CmdArgs) (w : World) : Prop :=
  exists args1 cfg w1,
    DoPrepare args InitParsedConfig w = ((0, args1, cfg), w1) /\
    0 <= EnterNsByPath env (containerNsPath cfg) /\
    0 <= DoMounting env cfg (files args1) (dirs args1) /\
    SetupCgroup env cfg (files args1) (dirs args1) < 0.

(** What the specification asks of that path: a nonzero result, the
    process back in the namespace it started in, the saved handle
    closed. *)
Definition restored_on_cgroup_failure (args : CmdArgs) (w : World) : Prop :=
  cgroup_fails_after_mounts args w ->
  fst (fst (SetupContainer args w)) <> 0 /\
  mnt_ns (snd (SetupContainer args w)) = mnt_ns w /\
  fds (snd (SetupContainer args w)) = fds w.

(** ** Properties *)

(** *** Integer conversions *)

Lemma to_int_range x : INT_MIN <= to_int x <= INT_MAX.
Proof. unfold to_int, INT_MIN, INT_MAX. pose proof (Z.mod_pos_bound (x + 2 ^ 31) (2 ^ 32)). lia. Qed.

Lemma to_int_id x : INT_MIN <= x <= INT_MAX -> to_int x = x.
Proof.
  unfold to_int, INT_MIN, INT_MAX. intros H.
  rewrite Z.mod_small; lia.
Qed.

Lemma to_uint_range x : 0 <= to_uint x <= UINT_MAX.
Proof. unfold to_uint, UINT_MAX. pose proof (Z.mod_pos_bound x (2 ^ 32)). lia. Qed.

Lemma to_uint_id x : 0 <= x <= UINT_MAX -> to_uint x = x.
Proof. unfold to_uint, UINT_MAX. intros H. rewrite Z.mod_small; lia. Qed.

(** *** Path legality *)

Lemma string_take_all (s : string) : string_take (strlen s) s = s.
Proof. induction s as [|c s IH]; simpl; [reflexivity | now rewrite IH]. Qed.

Lemma streq_true (a b : string) : streq a b = true <-> a = b.
Proof. apply String.eqb_eq. Qed.

Lemma streq_false (a b : string) : streq a b = false <-> a <> b.
Proof. apply String.eqb_neq. Qed.

(** The checks of [CheckFileLegality], one by one. *)
Lemma CheckFileLegality_iff (p : string) :
  CheckFileLegality p (strlen p) = true <->
  (0 < strlen p <= PATH_MAX)%nat /\
  string_forallb IsValidChar p = true /\
  (realpath env p = Resolved p \/ realpath env p = Unresolved ENOENT p).
Proof.
  unfold CheckFileLegality. rewrite string_take_all.
  destruct (Nat.ltb_spec PATH_MAX (strlen p)) as [Hlong|Hlen]; simpl.
  { split; [discriminate | intros [[_ H] _]; lia]. }
  destruct (Nat.leb_spec (strlen p) 0) as [Hzero|Hpos]; simpl.
  { split; [discriminate | intros [[H _] _]; lia]. }
  destruct (string_forallb IsValidChar p) eqn:Hchars; simpl.
  2:{ split; [discriminate | intros (_ & H & _); discriminate]. }
  destruct (realpath env p) as [r | e buf] eqn:Hreal.
  - rewrite streq_true. split.
    + intros ->. repeat split; try lia. now left.
    + intros (_ & _ & [H | H]); congruence.
  - destruct (Z.eqb_spec e ENOENT) as [-> | Hne]; simpl.
    + rewrite streq_true. split.
      * intros ->. repeat split; try lia. now right.
      * intros (_ & _ & [H | H]); congruence.
    + split; [discriminate | intros (_ & _ & [H | H]); congruence].
Qed.

(** *** The white list *)

Lemma whitelist_scan (rows : list string) (f : string) (found : bool) :
  fold_left (fun found row => if streq row f then true else found) rows found = true <->
  found = true \/ f ∈ rows.
Proof.
  revert found. induction rows as [|r rows IH]; intros found; simpl.
  - split; [now left | intros [H | H]; [assumption | now apply elem_of_nil in H]].
  - rewrite IH, elem_of_cons. destruct (streq r f) eqn:E.
    + apply streq_true in E. subst. tauto.
    + apply streq_false in E. split.
      * intros [H | H]; tauto.
      * intros [H | [H | H]]; [tauto | congruence | tauto].
Qed.

Lemma CheckWhiteList_iff (f : string) :
  CheckWhiteList f = true <-> f ∈ mountWhiteList.
Proof.
  unfold CheckWhiteList.
  destruct (fold_left _ mountWhiteList false) eqn:E; simpl.
  - apply whitelist_scan in E as [E | E]; [discriminate | tauto].
  - split; [discriminate |]. intros H.
    assert (fold_left (fun found row => if streq row f then true else found)
                      mountWhiteList false = true) as H'
      by (apply whitelist_scan; now right).
    congruence.
Qed.

Lemma mountWhiteList_elem (f : string) :
  f ∈ mountWhiteList -> f ∈ whiteListInit \/ f = EmptyString.
Proof.
  unfold mountWhiteList. intros H.
  apply elem_of_take in H as (i & H & _).
  apply list_elem_of_lookup_2 in H.
  apply elem_of_app in H as [H | H]; [now left | right].
  now apply elem_of_replicate in H as [H _].
Qed.

Lemma whiteListInit_in_mountWhiteList (f : string) :
  (4 <= WHITE_LIST_NUM)%nat -> f ∈ whiteListInit -> f ∈ mountWhiteList.
Proof.
  intros Hn Hf. unfold mountWhiteList.
  rewrite take_app. apply elem_of_app. left.
  rewrite take_ge by (simpl; lia). exact Hf.
Qed.

(** *** Mount lists *)

Lemma CheckWhiteList_bool (f : string) :
  (if CheckWhiteList f then true else false) = CheckWhiteList f.
Proof. now destruct (CheckWhiteList f). Qed.

Lemma MountFileCmdArgParser_append (args : CmdArgs) (arg : string) :
  MountFileCmdArgParser args arg =
  (fst (mount_append (files args) arg),
   set_files args (snd (mount_append (files args) arg))).
Proof.
  unfold MountFileCmdArgParser, mount_append.
  destruct (Nat.eqb (count (files args)) MAX_MOUNT_NR);
    [now destruct args as [? ? ? ? [? ?] ?] |].
  destruct (strcpy_s PATH_MAX arg) as [dst|]; simpl; [| reflexivity].
  rewrite CheckWhiteList_bool.
  now destruct (CheckFileLegality dst (strlen dst)).
Qed.

Lemma MountDirCmdArgParser_append (args : CmdArgs) (arg : string) :
  MountDirCmdArgParser args arg =
  (fst (mount_append (dirs args) arg),
   set_dirs args (snd (mount_append (dirs args) arg))).
Proof.
  unfold MountDirCmdArgParser, mount_append.
  destruct (Nat.eqb (count (dirs args)) MAX_MOUNT_NR);
    [now destruct args as [? ? ? ? ? [? ?]] |].
  destruct (strcpy_s PATH_MAX arg) as [dst|]; simpl; [| reflexivity].
  rewrite CheckWhiteList_bool.
  now destruct (CheckFileLegality dst (strlen dst)).
Qed.

Lemma mount_append_count (ml : MountList) (arg : string) :
  (count ml <= MAX_MOUNT_NR)%nat ->
  (count (snd (mount_append ml arg)) <= MAX_MOUNT_NR)%nat.
Proof.
  intros Hle. unfold mount_append.
  destruct (Nat.eqb_spec (count ml) MAX_MOUNT_NR) as [Heq | Hne]; simpl; [lia |].
  destruct (strcpy_s PATH_MAX arg) as [dst|]; simpl; [| lia].
  destruct (CheckFileLegality dst (strlen dst)); simpl; lia.
Qed.

Lemma mount_append_full (ml : MountList) (arg : string) :
  count ml = MAX_MOUNT_NR -> mount_append ml arg = (false, ml).
Proof.
  intros Heq. unfold mount_append.
  now rewrite (proj2 (Nat.eqb_eq _ _) Heq).
Qed.

Lemma mount_append_accepts (ml : MountList) (arg : string) :
  fst (mount_append ml arg) = true ->
  CheckFileLegality arg (strlen arg) = true /\ CheckWhiteList arg = true.
Proof.
  unfold mount_append.
  destruct (Nat.eqb (count ml) MAX_MOUNT_NR); simpl; [discriminate |].
  unfold strcpy_s. destruct (Nat.ltb (strlen arg) PATH_MAX); simpl; [| discriminate].
  destruct (CheckFileLegality arg (strlen arg)); simpl; [| discriminate].
  destruct (CheckWhiteList arg); simpl; [tauto | discriminate].
Qed.

Lemma args_zero_inv : mount_inv args_zero.
Proof. unfold mount_inv; simpl; lia. Qed.

Lemma DevicesCmdArgParser_mounts args arg :
  files (snd (DevicesCmdArgParser args arg)) = files args /\
  dirs (snd (DevicesCmdArgParser args arg)) = dirs args.
Proof.
  unfold DevicesCmdArgParser.
  destruct (string_forallb devices_char_ok arg); simpl; [| tauto].
  destruct (strcpy_s BUF_SIZE arg); simpl; tauto.
Qed.

Lemma PidCmdArgParser_mounts args arg :
  files (snd (PidCmdArgParser args arg)) = files args /\
  dirs (snd (PidCmdArgParser args arg)) = dirs args.
Proof.
  unfold PidCmdArgParser.
  destruct (strtol arg) as [v r1].
  destruct (CheckExternalFile env pidMax); simpl; [| tauto].
  destruct (fopen env pidMax) as [content|]; simpl; [| tauto].
  destruct (fgets PATH_MAX content) as [line|]; simpl; [| tauto].
  destruct (string_forallb isdigit (chomp (cstr line))); simpl; [| tauto].
  destruct (to_int v <? 0); simpl; [tauto |].
  destruct (strtol (chomp (cstr line))) as [m r2].
  destruct (m <=? to_int v); simpl; [tauto |].
  destruct (negb _); simpl; tauto.
Qed.

Lemma RootfsCmdArgParser_mounts args arg :
  files (snd (RootfsCmdArgParser args arg)) = files args /\
  dirs (snd (RootfsCmdArgParser args arg)) = dirs args.
Proof.
  unfold RootfsCmdArgParser.
  destruct (strcpy_s BUF_SIZE arg); simpl; [| tauto].
  destruct (negb _); simpl; tauto.
Qed.

Lemma OptionsCmdArgParser_mounts args arg :
  files (snd (OptionsCmdArgParser args arg)) = files args /\
  dirs (snd (OptionsCmdArgParser args arg)) = dirs args.
Proof.
  unfold OptionsCmdArgParser.
  destruct (strcpy_s BUF_SIZE arg); simpl; [| tauto].
  match goal with |- context [if ?b then _ else _] => destruct b end; simpl; tauto.
Qed.

Lemma find_parser_table (c : ascii) (parser : CmdArgParser) :
  find_parser g_cmdArgParsers c = Some parser ->
  parser = DevicesCmdArgParser \/ parser = PidCmdArgParser \/
  parser = RootfsCmdArgParser \/ parser = OptionsCmdArgParser \/
  parser = MountFileCmdArgParser \/ parser = MountDirCmdArgParser.
Proof.
  unfold g_cmdArgParsers, find_parser.
  repeat match goal with
         | |- context [Ascii.eqb ?a c] => destruct (Ascii.eqb a c)
         end; intros H; inversion H; tauto.
Qed.

Lemma find_parser_f : find_parser g_cmdArgParsers "f" = Some MountFileCmdArgParser.
Proof. reflexivity. Qed.

Lemma find_parser_i : find_parser g_cmdArgParsers "i" = Some MountDirCmdArgParser.
Proof. reflexivity. Qed.

Lemma ParseOneCmdArg_inv args c value :
  mount_inv args -> mount_inv (snd (ParseOneCmdArg args c value)).
Proof.
  intros [Hf Hd]. unfold ParseOneCmdArg.
  destruct value as [value|]; [| simpl; now split].
  destruct (find_parser g_cmdArgParsers c) as [parser|] eqn:Hp; [| simpl; now split].
  assert (mount_inv (snd (parser args value))) as Hinv.
  { apply find_parser_table in Hp.
    destruct Hp as [-> | [-> | [-> | [-> | [-> | ->]]]]]; unfold mount_inv.
    - destruct (DevicesCmdArgParser_mounts args value) as [-> ->]; now split.
    - destruct (PidCmdArgParser_mounts args value) as [-> ->]; now split.
    - destruct (RootfsCmdArgParser_mounts args value) as [-> ->]; now split.
    - destruct (OptionsCmdArgParser_mounts args value) as [-> ->]; now split.
    - rewrite MountFileCmdArgParser_append.
      pose proof (mount_append_count (files args) value Hf) as H.
      destruct (mount_append (files args) value); simpl in *; now split.
    - rewrite MountDirCmdArgParser_append.
      pose proof (mount_append_count (dirs args) value Hd) as H.
      destruct (mount_append (dirs args) value); simpl in *; now split. }
  destruct (parser args value) as [isOK args']; simpl in *.
  destruct (negb isOK); simpl; exact Hinv.
Qed.

Lemma parse_opts_inv opts : forall args,
  mount_inv args -> mount_inv (snd (parse_opts args opts)).
Proof.
  induction opts as [|[c value] opts IH]; intros args Hinv; simpl; [exact Hinv |].
  pose proof (ParseOneCmdArg_inv args c value Hinv) as H1.
  destruct (ParseOneCmdArg args c value) as [ret args']; simpl in *.
  destruct (ret <? 0); simpl; [exact H1 | now apply IH].
Qed.

Lemma parse_opts_app pre post : forall args,
  parse_opts args (pre ++ post) =
  let '(ret, args') := parse_opts args pre in
  if ret <? 0 then (-1, args') else parse_opts args' post.
Proof.
  induction pre as [|[c value] pre IH]; intros args; simpl; [reflexivity |].
  destruct (ParseOneCmdArg args c value) as [ret args']; simpl.
  destruct (ret <? 0); simpl; [reflexivity | apply IH].
Qed.

Lemma Process_parse_failure opts w :
  fst (parse_opts args_zero opts) < 0 -> Process opts w = (-1, w).
Proof.
  unfold Process. destruct (parse_opts args_zero opts) as [ret args]; simpl.
  intros H. now rewrite (proj2 (Z.ltb_lt _ _) H).
Qed.

Lemma Process_rejected_option pre c value post args w :
  parse_opts args_zero pre = (0, args) ->
  fst (ParseOneCmdArg args c value) < 0 ->
  Process (pre ++ (c, value) :: post) w = (-1, w).
Proof.
  intros Hpre Hfail. apply Process_parse_failure.
  rewrite parse_opts_app, Hpre. simpl.
  destruct (ParseOneCmdArg args c value) as [ret args']; simpl in *.
  rewrite (proj2 (Z.ltb_lt _ _) Hfail). simpl. lia.
Qed.

(** *** The pid argument *)

Lemma strtol_range_to_int (s : string) :
  snd (strtol s) = true -> to_int (fst (strtol s)) <= 0.
Proof.
  unfold strtol.
  destruct (LONG_MAX <? numeral_value s); simpl; [intros _; now vm_compute |].
  destruct (numeral_value s <? LONG_MIN); simpl; [intros _; now vm_compute | discriminate].
Qed.

Lemma strtol_in_range (s : string) :
  LONG_MIN <= numeral_value s <= LONG_MAX -> strtol s = (numeral_value s, false).
Proof.
  intros [Hlo Hhi]. unfold strtol.
  destruct (Z.ltb_spec LONG_MAX (numeral_value s)); [lia |].
  destruct (Z.ltb_spec (numeral_value s) LONG_MIN); [lia | reflexivity].
Qed.

Lemma PidCmdArgParser_pid args arg :
  pid (snd (PidCmdArgParser args arg)) = to_int (fst (strtol arg)) /\
  devices (snd (PidCmdArgParser args arg)) = devices args /\
  rootfs (snd (PidCmdArgParser args arg)) = rootfs args.
Proof.
  unfold PidCmdArgParser.
  destruct (strtol arg) as [v r1].
  destruct (CheckExternalFile env pidMax); simpl; [| tauto].
  destruct (fopen env pidMax) as [content|]; simpl; [| tauto].
  destruct (fgets PATH_MAX content) as [line|]; simpl; [| tauto].
  destruct (string_forallb isdigit (chomp (cstr line))); simpl; [| tauto].
  destruct (to_int v <? 0); simpl; [tauto |].
  destruct (strtol (chomp (cstr line))) as [m r2].
  destruct (m <=? to_int v); simpl; [tauto |].
  destruct (negb _); simpl; tauto.
Qed.

Lemma PidCmdArgParser_iff args arg :
  fst (PidCmdArgParser args arg) = true <->
  exists m, read_pid_max = Some m /\
            0 <= to_int (fst (strtol arg)) < m /\
            errno_after_read env (if snd (strtol arg) then ERANGE else 0) = 0.
Proof.
  unfold PidCmdArgParser, read_pid_max.
  destruct (strtol arg) as [v r1]; simpl.
  destruct (CheckExternalFile env pidMax); simpl.
  2:{ split; [discriminate | intros (m & H & _); discriminate]. }
  destruct (fopen env pidMax) as [content|]; simpl.
  2:{ split; [discriminate | intros (m & H & _); discriminate]. }
  destruct (fgets PATH_MAX content) as [line|]; simpl.
  2:{ split; [discriminate | intros (m & H & _); discriminate]. }
  destruct (string_forallb isdigit (chomp (cstr line))); simpl.
  2:{ split; [discriminate | intros (m & H & _); discriminate]. }
  destruct (strtol (chomp (cstr line))) as [m r2].
  destruct (Z.ltb_spec (to_int v) 0) as [Hneg | Hnn]; simpl.
  { split; [discriminate |]. intros (m' & _ & H & _). lia. }
  destruct (Z.leb_spec m (to_int v)) as [Hge | Hlt]; simpl.
  { split; [discriminate |]. intros (m' & Hm & H & _).
    destruct r2; [discriminate |]. inversion Hm; subst. lia. }
  destruct r2; simpl.
  { split; [discriminate | intros (m' & H & _); discriminate]. }
  destruct (Z.eqb_spec (errno_after_read env (if r1 then ERANGE else 0)) 0) as [He | He]; simpl.
  - split; [| reflexivity]. intros _. exists m. repeat split; auto; lia.
  - split; [discriminate | intros (m' & _ & _ & H); contradiction].
Qed.

(** *** The device tokenizer never runs out of iterations *)

Lemma find_begin_length (sep s : string) :
  (String.length (snd (find_begin sep s)) <= String.length s)%nat.
Proof.
  induction s as [|c s IH]; simpl; [lia |].
  destruct (Ascii.eqb c NUL); simpl; [lia |].
  destruct (is_delim sep c); simpl; [| lia].
  destruct (find_begin sep s) as [sk r]; simpl in *. lia.
Qed.

Lemma find_rest_length (sep s : string) :
  fst (fst (find_rest sep s)) <> EmptyString ->
  (String.length (snd (find_rest sep s)) < String.length s)%nat.
Proof.
  assert (forall t, (String.length (snd (find_rest sep t)) <= String.length t)%nat) as Hle.
  { induction t as [|c t IH]; simpl; [lia |].
    destruct (Ascii.eqb c NUL); simpl; [lia |].
    destruct (is_delim sep c); simpl; [lia |].
    destruct (find_rest sep t) as [[tok mem] r]; simpl in *. lia. }
  destruct s as [|c s]; simpl; [congruence |].
  destruct (Ascii.eqb c NUL); simpl; [congruence |].
  destruct (is_delim sep c); simpl; [congruence |].
  intros _. specialize (Hle s).
  destruct (find_rest sep s) as [[tok mem] r]; simpl in *. lia.
Qed.

Lemma strtok_s_length (sep before ctx : string) :
  (String.length (snd (strtok_s sep before ctx)) <= String.length ctx)%nat /\
  (fst (fst (strtok_s sep before ctx)) <> None ->
   (String.length (snd (strtok_s sep before ctx)) < String.length ctx)%nat).
Proof.
  unfold strtok_s.
  pose proof (find_begin_length sep ctx) as Hb.
  destruct (find_begin sep ctx) as [skipped b]; simpl in Hb.
  pose proof (find_rest_length sep b) as Hr.
  destruct (find_rest sep b) as [[tok mem] r] eqn:E; simpl in *.
  destruct tok as [|c tok]; simpl.
  - split; [| congruence].
    clear Hr. destruct b as [|c b]; simpl in E.
    + inversion E; subst; simpl; lia.
    + destruct (Ascii.eqb c NUL); [inversion E; subst; simpl in *; lia |].
      destruct (is_delim sep c); [inversion E; subst; simpl in *; lia |].
      destruct (find_rest sep b) as [[tok' mem'] r']; inversion E.
  - assert (String.length r < String.length b)%nat by (apply Hr; congruence).
    split; [lia | intros _; lia].
Qed.

Lemma ParseDeviceIDs_loop_total (fuel idListSize : nat) :
  forall token idx idList before ctx,
    (token = None \/ (String.length ctx < fuel)%nat) ->
    is_Some (ParseDeviceIDs_loop fuel idListSize token idx idList before ctx).
Proof.
  induction fuel as [|fuel IH]; intros token idx idList before ctx Hfuel.
  - destruct Hfuel as [-> | H]; [simpl; eauto | lia].
  - destruct token as [tok|]; simpl; [| eauto].
    destruct Hfuel as [H | Hfuel]; [discriminate |].
    destruct (Nat.leb idListSize idx); [eauto |].
    destruct (strtoul tok) as [v range].
    destruct range; [eauto |].
    pose proof (strtok_s_length "," before ctx) as [Hle Hlt].
    destruct (strtok_s "," before ctx) as [[token' before'] ctx']; simpl in *.
    apply IH. destruct token' as [tok'|]; [right | now left].
    assert (String.length ctx' < String.length ctx)%nat by (apply Hlt; congruence). lia.
Qed.

Lemma ParseDeviceIDs_total (idList : list Z) (idListSize : nat) (devs : string) :
  is_Some (ParseDeviceIDs_loop (S (String.length devs)) idListSize
             (fst (fst (strtok_s "," EmptyString devs))) 0 idList
             (snd (fst (strtok_s "," EmptyString devs)))
             (snd (strtok_s "," EmptyString devs))).
Proof.
  apply ParseDeviceIDs_loop_total. right.
  pose proof (strtok_s_length "," EmptyString devs) as [Hle _]. lia.
Qed.

(** *** Preparation and the setup sequence *)

Ltac unfold_M := unfold mbind, mret, M_bind, M_ret in *.

Lemma no_ns_switch_refl (w w' : World) :
  trace w' = trace w -> no_ns_switch w w'.
Proof. intros H. exists []. rewrite H, app_nil_r. now split. Qed.

Lemma fd_remove_head (fd : Z) (ns : MntNs) (t : list (Z * MntNs)) :
  fd_remove fd ((fd, ns) :: t) = t.
Proof. simpl. now rewrite Z.eqb_refl. Qed.

(** [DoPrepare] returns [0] or [-1], leaves the namespace membership
    alone, and on success has opened exactly the descriptor it stores in
    [originNsFd]. *)
Lemma DoPrepare_effects (args : CmdArgs) (cfg : ParsedConfig) (w : World) :
  forall ret args' cfg' w',
    DoPrepare args cfg w = ((ret, args', cfg'), w') ->
    (ret = 0 \/ ret = -1) /\
    mnt_ns w' = mnt_ns w /\
    no_ns_switch w w' /\
    (ret = 0 -> 0 <= originNsFd cfg' /\
                fds w' = (originNsFd cfg', mnt_ns w) :: fds w) /\
    (ret = -1 -> fds w' = fds w).
Proof.
  intros ret args' cfg' w'. unfold DoPrepare.
  destruct (strcpy_s BUF_SIZE (rootfs args)) as [r|].
  2:{ unfold_M. intros H; inversion H; subst.
      repeat split; auto using no_ns_switch_refl; lia. }
  destruct (ParseDeviceIDs _ _ _) as [[[pret idList] n] devs].
  destruct (pret <? 0).
  { unfold_M. intros H; inversion H; subst.
    repeat split; auto using no_ns_switch_refl; lia. }
  destruct (GetNsPath env _ _) as [nsPath|].
  2:{ unfold_M. intros H; inversion H; subst.
      repeat split; auto using no_ns_switch_refl; lia. }
  destruct (GetCgroupPath env _) as [cg|].
  2:{ unfold_M. intros H; inversion H; subst.
      repeat split; auto using no_ns_switch_refl; lia. }
  destruct (GetSelfNsPath env _) as [originNsPath|].
  2:{ unfold_M. intros H; inversion H; subst.
      repeat split; auto using no_ns_switch_refl; lia. }
  unfold_M. unfold sys_open. simpl.
  destruct (Z.ltb_spec (open_rdonly env originNsPath) 0) as [Hneg | Hok];
    intros H; inversion H; subst; simpl.
  - repeat split; auto; try lia.
    exists [EvOpen originNsPath (open_rdonly env originNsPath)]. now split.
  - repeat split; auto; try lia.
    exists [EvOpen originNsPath (open_rdonly env originNsPath)]. now split.
Qed.

(** [DoPrepare] writes to no field of the [CmdArgs] other than
    [devices]. *)
Lemma DoPrepare_frame (args : CmdArgs) (cfg : ParsedConfig) (w : World) :
  let args' := snd (fst (fst (DoPrepare args cfg w))) in
  args' = set_devices args (devices args').
Proof.
  unfold DoPrepare.
  destruct (strcpy_s BUF_SIZE (rootfs args)) as [r|]; [| now destruct args].
  destruct (ParseDeviceIDs _ _ _) as [[[pret idList] n] devs].
  destruct (pret <? 0); [reflexivity |].
  destruct (GetNsPath env _ _) as [nsPath|]; [| reflexivity].
  destruct (GetCgroupPath env _) as [cg|]; [| reflexivity].
  destruct (GetSelfNsPath env _) as [originNsPath|]; [| reflexivity].
  unfold_M. unfold sys_open. simpl.
  now destruct (open_rdonly env originNsPath <? 0).
Qed.

(** When preparation fails, [SetupContainer] returns [-1] right away. *)
Lemma SetupContainer_prepare_failure (args : CmdArgs) (w : World) :
  fst (fst (fst (DoPrepare args InitParsedConfig w))) < 0 ->
  fst (fst (SetupContainer args w)) = -1 /\
  mnt_ns (snd (SetupContainer args w)) = mnt_ns w /\
  no_ns_switch w (snd (SetupContainer args w)).
Proof.
  intros Hfail. unfold SetupContainer. unfold_M.
  destruct (DoPrepare args InitParsedConfig w) as [[[ret args'] cfg'] w'] eqn:E.
  simpl in Hfail. rewrite (proj2 (Z.ltb_lt _ _) Hfail). simpl.
  apply DoPrepare_effects in E as (_ & Hns & Hsw & _). auto.
Qed.

(** When parsing or [IsCmdArgsValid] fails, [Process] returns [-1]
    without any call that acts on the process. *)
Lemma Process_validation_failure (opts : list (ascii * option string)) (w : World) :
  fst (parse_opts args_zero opts) < 0 \/
  IsCmdArgsValid (snd (parse_opts args_zero opts)) = false ->
  Process opts w = (-1, w).
Proof.
  intros [H | H]; [now apply Process_parse_failure |].
  unfold Process. destruct (parse_opts args_zero opts) as [ret args]; simpl in *.
  destruct (ret <? 0); [reflexivity |]. now rewrite H.
Qed.

(** X18.  Every invocation in which parsing, [IsCmdArgsValid] or [DoPrepare]
    fails returns [-1] with the process in the namespace it started in
    and without a call that switches namespaces. *)
Lemma Process_failure_before_switch (opts : list (ascii * option string)) (w : World) :
  fst (parse_opts args_zero opts) < 0 \/
  IsCmdArgsValid (snd (parse_opts args_zero opts)) = false \/
  fst (fst (fst (DoPrepare (snd (parse_opts args_zero opts)) InitParsedConfig w))) < 0 ->
  fst (Process opts w) = -1 /\
  mnt_ns (snd (Process opts w)) = mnt_ns w /\
  no_ns_switch w (snd (Process opts w)).
Proof.
  intros [H | [H | H]].
  - rewrite Process_validation_failure by now left.
    repeat split. now apply no_ns_switch_refl.
  - rewrite Process_validation_failure by now right.
    repeat split. now apply no_ns_switch_refl.
  - unfold Process. destruct (parse_opts args_zero opts) as [ret args]; simpl in *.
    destruct (ret <? 0); [repeat split; now apply no_ns_switch_refl |].
    destruct (IsCmdArgsValid args); simpl;
      [| repeat split; now apply no_ns_switch_refl].
    apply SetupContainer_prepare_failure in H as (H1 & H2 & H3).
    unfold_M. destruct (SetupContainer args w) as [[r a] w']; simpl in *.
    subst r. simpl. auto.
Qed.

(** The failure path of the cgroup configuration, call by call. *)
Lemma SetupContainer_cgroup_failure (args : CmdArgs) (w : World)
    (args1 : CmdArgs) (cfg : ParsedConfig) (w1 : World) :
  DoPrepare args InitParsedConfig w = ((0, args1, cfg), w1) ->
  0 <= EnterNsByPath env (containerNsPath cfg) ->
  0 <= DoMounting env cfg (files args1) (dirs args1) ->
  SetupCgroup env cfg (files args1) (dirs args1) < 0 ->
  SetupContainer args w =
    ((-1, args1),
     mkWorld (TargetNs (containerNsPath cfg))
             (fds w)
             (trace w1 ++
              [ EvEnterNsByPath (containerNsPath cfg) (EnterNsByPath env (containerNsPath cfg));
                EvDoMounting (DoMounting env cfg (files args1) (dirs args1));
                EvSetupCgroup (SetupCgroup env cfg (files args1) (dirs args1));
                EvClose (originNsFd cfg) ])).
Proof.
  intros Hprep Henter Hmount Hcg.
  pose proof (DoPrepare_effects _ _ _ _ _ _ _ Hprep) as (_ & _ & _ & Hok & _).
  destruct (Hok eq_refl) as [_ Hfds].
  unfold SetupContainer. unfold_M. rewrite Hprep. simpl.
  unfold call_EnterNsByPath, call_DoMounting, call_SetupCgroup, emit, sys_close.
  unfold_M. simpl.
  rewrite (proj2 (Z.ltb_ge _ _) Henter). simpl.
  rewrite (proj2 (Z.ltb_ge _ _) Hmount). simpl.
  rewrite (proj2 (Z.ltb_lt _ _) Hcg). simpl.
  rewrite Hfds, fd_remove_head.
  repeat rewrite <- app_assoc. reflexivity.
Qed.

(** *** The devices argument *)

Lemma DevicesCmdArgParser_invalid_char (args : CmdArgs) (arg : string) :
  string_forallb devices_char_ok arg = false ->
  DevicesCmdArgParser args arg = (false, args).
Proof. intros H. unfold DevicesCmdArgParser. now rewrite H. Qed.

Lemma DevicesCmdArgParser_accepts (args : CmdArgs) (arg : string) :
  fst (DevicesCmdArgParser args arg) = true <->
  string_forallb devices_char_ok arg = true /\ (strlen arg < BUF_SIZE)%nat.
Proof.
  unfold DevicesCmdArgParser, strcpy_s.
  destruct (string_forallb devices_char_ok arg); simpl.
  - destruct (Nat.ltb_spec (strlen arg) BUF_SIZE); simpl.
    + tauto.
    + split; [discriminate | intros [_ H']; lia].
  - split; [discriminate | intros [H' _]; discriminate].
Qed.

(** A string of separators only holds no token: [ParseDeviceIDs]
    succeeds with an empty id list and leaves the array as it is. *)
Lemma ParseDeviceIDs_separator (idList : list Z) (idListSize : nat) :
  ParseDeviceIDs idList idListSize ("," +:+ String NUL EmptyString) =
  (0, idList, 0%nat, "," +:+ String NUL EmptyString).
Proof. reflexivity. Qed.

(** The loop of [ParseDeviceIDs] stores the tokens of the string one
    after the other. *)
Lemma strtok_s_before (sep b1 b2 ctx : string) :
  fst (fst (strtok_s sep b1 ctx)) = fst (fst (strtok_s sep b2 ctx)) /\
  snd (strtok_s sep b1 ctx) = snd (strtok_s sep b2 ctx).
Proof.
  unfold strtok_s. destruct (find_begin sep ctx) as [skipped b].
  destruct (find_rest sep b) as [[tok mem] r]. now split.
Qed.

Lemma tokens_from_fuel (f1 : nat) : forall f2 ctx,
  (String.length ctx < f1)%nat -> (String.length ctx < f2)%nat ->
  tokens_from f1 ctx = tokens_from f2 ctx.
Proof.
  induction f1 as [|f1 IH]; intros f2 ctx H1 H2; [lia |].
  destruct f2 as [|f2]; [lia |]. simpl.
  pose proof (strtok_s_length "," EmptyString ctx) as [_ Hlt].
  destruct (strtok_s "," EmptyString ctx) as [[[tok|] before'] ctx']; [| reflexivity].
  simpl in Hlt. assert (String.length ctx' < String.length ctx)%nat by (apply Hlt; congruence).
  f_equal. apply IH; lia.
Qed.

Lemma ParseDeviceIDs_loop_spec (fuel idListSize : nat) :
  forall token idx idList before ctx,
    (token = None \/ (String.length ctx < fuel)%nat) ->
    exists buf,
      ParseDeviceIDs_loop fuel idListSize token idx idList before ctx =
      Some (store_ids idListSize
              (match token with
               | None => []
               | Some tok => tok :: tokens_from fuel ctx
               end) idx idList, buf).
Proof.
  induction fuel as [|fuel IH]; intros token idx idList before ctx Hfuel.
  - destruct Hfuel as [-> | H]; [simpl; eauto | lia].
  - destruct token as [tok|]; [| simpl; eauto].
    destruct Hfuel as [H | Hfuel]; [discriminate |].
    cbn [ParseDeviceIDs_loop store_ids].
    destruct (Nat.leb idListSize idx); [eauto |].
    unfold id_of. destruct (strtoul tok) as [v range]. cbn [fst snd].
    destruct range; [eauto |].
    pose proof (strtok_s_length "," before ctx) as [_ Hlt].
    destruct (strtok_s_before "," before EmptyString ctx) as [Htok Hctx].
    cbn [tokens_from].
    destruct (strtok_s "," before ctx) as [[token' before'] ctx'].
    destruct (strtok_s "," EmptyString ctx) as [[token'' before''] ctx''].
    simpl in Htok, Hctx, Hlt. subst token'' ctx''.
    destruct (IH token' (idx + 1)%nat (<[idx := to_uint v]> idList) before' ctx') as [buf Hbuf].
    { destruct token' as [tok'|]; [right | now left].
      assert (String.length ctx' < String.length ctx)%nat by (apply Hlt; congruence). lia. }
    exists buf. rewrite Hbuf. now destruct token'.
Qed.

Lemma ParseDeviceIDs_spec (idList : list Z) (idListSize : nat) (devs : string) :
  fst (ParseDeviceIDs idList idListSize devs) = store_ids idListSize (tokens devs) 0 idList.
Proof.
  unfold ParseDeviceIDs, tokens. cbn [tokens_from].
  pose proof (strtok_s_length "," EmptyString devs) as [Hle Hlt].
  destruct (strtok_s "," EmptyString devs) as [[token before] ctx]. simpl in Hle, Hlt.
  destruct (ParseDeviceIDs_loop_spec (S (String.length devs)) idListSize token 0 idList
              before ctx) as [buf Hbuf]; [right; lia |].
  rewrite Hbuf. cbn [fst]. destruct token as [tok|]; [| reflexivity].
  assert (String.length ctx < String.length devs)%nat by (apply Hlt; congruence).
  now rewrite (tokens_from_fuel (S (String.length devs)) (String.length devs) ctx) by lia.
Qed.

Lemma store_ids_spec (idListSize : nat) (toks : list string) :
  forall idx idList ret idList' n,
    store_ids idListSize toks idx idList = (ret, idList', n) ->
    (ret = 0 \/ ret = -1) /\
    (ret = 0 <->
     (toks = [] \/ (idx + length toks <= idListSize)%nat) /\
     Forall (fun tok => snd (strtoul tok) = false) toks) /\
    (ret = 0 ->
     n = (idx + length toks)%nat /\
     ((idx + length toks <= length idList)%nat ->
      take (idx + length toks) idList' = (take idx idList ++ map id_of toks)%list)).
Proof.
  induction toks as [|tok toks IH]; intros idx idList ret idList' n; simpl.
  - intros H; inversion H; subst. split; [now left |]. split.
    + split; [intros _; split; [now left | constructor] | reflexivity].
    + intros _. split; [lia |]. intros _.
      now rewrite Nat.add_0_r, app_nil_r.
  - destruct (Nat.leb_spec idListSize idx) as [Hfull | Hroom].
    { intros H; inversion H; subst. split; [now right |]. split.
      - split; [discriminate |]. intros [[Hnil | Hle] _]; [discriminate | lia].
      - discriminate. }
    destruct (snd (strtoul tok)) eqn:Hrange.
    { intros H; inversion H; subst. split; [now right |]. split.
      - split; [discriminate |]. intros [_ Hall]. inversion Hall; subst. congruence.
      - discriminate. }
    intros H. apply IH in H as (Hret & Hiff & Hok). split; [exact Hret |]. split.
    + rewrite Hiff. split.
      * intros [[-> | Hle] Hall]; (split; [right; simpl; lia | now constructor]).
      * intros [[Hnil | Hle] Hall]; [discriminate |]. inversion Hall; subst.
        split; [right; lia | assumption].
    + intros Hzero. destruct (Hok Hzero) as [Hn Htake]. split; [lia |].
      intros Hlen. rewrite length_insert in Htake.
      replace (idx + S (length toks))%nat with (idx + 1 + length toks)%nat by lia.
      rewrite Htake by lia.
      replace (idx + 1)%nat with (S idx) by lia.
      rewrite (take_S_r _ idx (id_of tok)) by (apply list_lookup_insert_eq; lia).
      rewrite take_insert_ge by lia.
      now rewrite <- app_assoc.
Qed.

Lemma range_error_cases (toks : list string) :
  Forall (fun tok => snd (strtoul tok) = false) toks \/
  Exists (fun tok => snd (strtoul tok) = true) toks.
Proof.
  induction toks as [|tok toks [IH | IH]].
  - left. constructor.
  - destruct (snd (strtoul tok)) eqn:E.
    + right. now constructor.
    + left. now constructor.
  - right. now constructor 2.
Qed.

(** X7.  The verdict of [ParseDeviceIDs]: it returns [0] or [-1]; [-1]
    exactly when there are more tokens than the list has room for or
    [strtoul] reports a range error for a token; on [0] the list holds
    the ids of the tokens, each the value [strtoul] returned converted
    to [unsigned int]. *)
Lemma ParseDeviceIDs_verdict (idList : list Z) (idListSize : nat) (devs : string) :
  let ret := fst (fst (fst (ParseDeviceIDs idList idListSize devs))) in
  let idList' := snd (fst (fst (ParseDeviceIDs idList idListSize devs))) in
  let n := snd (fst (ParseDeviceIDs idList idListSize devs)) in
  (ret = 0 \/ ret = -1) /\
  (ret = -1 <->
   (idListSize < length (tokens devs))%nat \/
   Exists (fun tok => snd (strtoul tok) = true) (tokens devs)) /\
  (ret = 0 ->
   n = length (tokens devs) /\
   ((length (tokens devs) <= length idList)%nat -> take n idList' = map id_of (tokens devs))).
Proof.
  intros ret idList' n. subst ret idList' n.
  rewrite ParseDeviceIDs_spec.
  destruct (store_ids idListSize (tokens devs) 0 idList) as [[ret idList'] n] eqn:E.
  apply store_ids_spec in E as (Hret & Hiff & Hok). simpl in *.
  split; [exact Hret |]. split.
  - split.
    + intros Hm.
      destruct (Nat.le_gt_cases (length (tokens devs)) idListSize) as [Hle | Hgt]; [| now left].
      destruct (range_error_cases (tokens devs)) as [Hall | Hex]; [| now right].
      assert (ret = 0) as Hz; [| lia].
      apply Hiff. split; [now right | exact Hall].
    + intros Hbad. destruct Hret as [Hz | Hm]; [| exact Hm].
      apply Hiff in Hz as [[Hnil | Hle] Hall].
      * rewrite Hnil in Hbad. destruct Hbad as [Hbad | Hbad]; [simpl in Hbad; lia |].
        now apply Exists_nil in Hbad.
      * destruct Hbad as [Hbad | Hbad]; [lia |].
        apply Exists_exists in Hbad as (tok & Hin & Htok).
        rewrite Forall_forall in Hall. specialize (Hall tok Hin). congruence.
  - intros Hz. destruct (Hok Hz) as [Hn Htake]. simpl in Htake. split; [exact Hn |].
    intros Hlen. rewrite Hn. now apply Htake.
Qed.

(** *** The claims about the command line tool *)

(** C1 (as amended).  If cgroup configuration fails after the mounts
    have succeeded, [SetupContainer] returns the nonzero result [-1], the
    saved original-namespace descriptor is closed, so that the open
    descriptors are those of before the call, and no restore is
    attempted: no [EnterNsByFd] call is made and the process is left in
    the container's mount namespace. *)
Theorem cgroup_failure_closes_without_restore (args : CmdArgs) (w : World)
    (args1 : CmdArgs) (cfg : ParsedConfig) (w1 : World) :
  DoPrepare args InitParsedConfig w = ((0, args1, cfg), w1) ->
  0 <= EnterNsByPath env (containerNsPath cfg) ->
  0 <= DoMounting env cfg (files args1) (dirs args1) ->
  SetupCgroup env cfg (files args1) (dirs args1) < 0 ->
  fst (fst (SetupContainer args w)) = -1 /\
  fds (snd (SetupContainer args w)) = fds w /\
  mnt_ns (snd (SetupContainer args w)) = TargetNs (containerNsPath cfg) /\
  exists evs,
    trace (snd (SetupContainer args w)) = (trace w ++ evs)%list /\
    last evs = Some (EvClose (originNsFd cfg)) /\
    forall fd ret, EvEnterNsByFd fd ret ∉ evs.
Proof.
  intros Hprep Henter Hmount Hcg.
  rewrite (SetupContainer_cgroup_failure _ _ _ _ _ Hprep Henter Hmount Hcg). simpl.
  repeat split.
  apply DoPrepare_effects in Hprep as (_ & _ & (evs0 & Htr & Hno) & _).
  eexists (evs0 ++ [_; _; _; _])%list. rewrite Htr, <- app_assoc. split; [reflexivity |].
  split.
  - rewrite last_app. reflexivity.
  - intros fd ret Hin. apply elem_of_app in Hin as [Hin | Hin].
    + apply list_elem_of_In in Hin.
      rewrite forallb_forall in Hno. specialize (Hno _ Hin). discriminate.
    + repeat (apply elem_of_cons in Hin as [Hin | Hin]; [discriminate |]).
      now apply elem_of_nil in Hin.
Qed.

(** C3.  Path legality checking accepts a path only if the bytes
    [realpath] produced for it are identical to the path; a canonical
    form that differs from the input (as it does when a component is a
    symbolic link) is rejected; a failure of [realpath] with [ENOENT]
    does not by itself reject (the path is then accepted exactly when
    the length and character checks pass and the buffer, which holds the
    path up to the missing component, is the whole input), while a
    failure with any other error rejects. *)
Theorem path_legality_canonical (p : string) :
  (CheckFileLegality p (strlen p) = true ->
   realpath env p = Resolved p \/ realpath env p = Unresolved ENOENT p) /\
  (forall r, realpath env p = Resolved r -> r <> p ->
             CheckFileLegality p (strlen p) = false) /\
  (forall buf, realpath env p = Unresolved ENOENT buf ->
     (CheckFileLegality p (strlen p) = true <->
      (0 < strlen p <= PATH_MAX)%nat /\ string_forallb IsValidChar p = true /\ buf = p)) /\
  (forall e buf, realpath env p = Unresolved e buf -> e <> ENOENT ->
                 CheckFileLegality p (strlen p) = false).
Proof.
  pose proof (CheckFileLegality_iff p) as Hiff.
  split; [| split; [| split]].
  - intros H. now apply Hiff in H as (_ & _ & H).
  - intros r Hr Hne. apply not_true_is_false. intros H.
    apply Hiff in H as (_ & _ & [H | H]); congruence.
  - intros buf Hbuf. rewrite Hiff. split.
    + intros (Hl & Hc & [H | H]); [congruence |].
      repeat split; auto; try lia. congruence.
    + intros (Hl & Hc & ->). repeat split; auto; lia.
  - intros e buf Hr Hne. apply not_true_is_false. intros H.
    apply Hiff in H as (_ & _ & [H | H]); congruence.
Qed.

(** The verdict on the stored pid.  The pid the parser stores is the
    [int] conversion of what [strtol] returns for the argument (the
    value itself when it fits in [int]), and it is the stored pid that
    the checks see.  [PidCmdArgParser] followed by [IsCmdArgsValid]
    rejects a stored pid that is zero or negative, rejects one greater
    than or equal to the value read from the pid_max source, rejects
    when that source cannot be read or parsed, and rejects when [errno]
    is not zero at the final test.  For a stored pid strictly between 0
    and pid_max, and reads that leave a zero [errno] at zero, the parser
    accepts and the pid passes [IsCmdArgsValid], whose verdict then
    depends on the devices and rootfs fields only. *)
Lemma PidCmdArgParser_verdict (args : CmdArgs) (arg : string) :
  let r := PidCmdArgParser args arg in
  let p := pid (snd r) in
  let valid := fst r && IsCmdArgsValid (snd r) in
  p = to_int (fst (strtol arg)) /\
  (INT_MIN <= numeral_value arg <= INT_MAX -> p = numeral_value arg) /\
  (p <= 0 -> valid = false) /\
  (forall m, read_pid_max = Some m -> m <= p -> valid = false) /\
  (read_pid_max = None -> valid = false) /\
  (errno_after_read env (if snd (strtol arg) then ERANGE else 0) <> 0 -> valid = false) /\
  (forall m, read_pid_max = Some m -> 0 < p < m -> errno_after_read env 0 = 0 ->
     fst r = true /\
     valid = (Nat.ltb 0 (strlen (cstr (devices args))) && Nat.ltb 0 (strlen (rootfs args)))).
Proof.
  intros r p valid. subst r p valid.
  destruct (PidCmdArgParser_pid args arg) as (Hp & Hdev & Hroot).
  pose proof (PidCmdArgParser_iff args arg) as Hiff.
  split; [exact Hp |]. split; [| split; [| split; [| split; [| split]]]].
  - intros Hrange. rewrite Hp, strtol_in_range; simpl.
    + now apply to_int_id.
    + unfold INT_MIN, INT_MAX, LONG_MIN, LONG_MAX in *. lia.
  - intros Hle. unfold IsCmdArgsValid.
    destruct (Z.ltb_spec 0 (pid (snd (PidCmdArgParser args arg)))); [lia |].
    now rewrite !andb_false_r.
  - intros m Hm Hge. apply andb_false_intro1, not_true_is_false. intros H.
    apply Hiff in H as (m' & Hm' & Hlt & _). rewrite Hp in Hge.
    rewrite Hm in Hm'. inversion Hm'; subst. lia.
  - intros Hnone. apply andb_false_intro1, not_true_is_false. intros H.
    apply Hiff in H as (m' & Hm' & _). congruence.
  - intros Herr. apply andb_false_intro1, not_true_is_false. intros H.
    apply Hiff in H as (m' & _ & _ & He). contradiction.
  - intros m Hm Hlt Herr.
    assert (fst (PidCmdArgParser args arg) = true) as Hacc.
    { apply Hiff. exists m. rewrite Hp in Hlt. repeat split; auto; try lia.
      destruct (snd (strtol arg)) eqn:Hr; [| exact Herr].
      apply strtol_range_to_int in Hr. lia. }
    split; [exact Hacc |]. rewrite Hacc. simpl.
    unfold IsCmdArgsValid. rewrite Hdev, Hroot.
    destruct (Z.ltb_spec 0 (pid (snd (PidCmdArgParser args arg)))); [| lia].
    now rewrite andb_true_r.
Qed.

(** C6.  The white list check accepts a path exactly when it is
    string-equal to a row of the compiled-in list, with no prefix or
    pattern matching: a mount-file or mount-dir argument is accepted
    only if it is one of the four listed paths;
    "/usr/local/Ascend/driver/lib" is rejected and
    "/usr/local/Ascend/driver/lib64" is accepted. *)
Theorem whitelist_exact_match :
  (forall f, CheckWhiteList f = true <-> f ∈ mountWhiteList) /\
  (forall f, (4 <= WHITE_LIST_NUM)%nat -> f <> EmptyString ->
             (CheckWhiteList f = true <-> f ∈ whiteListInit)) /\
  (forall args arg,
     fst (MountFileCmdArgParser args arg) = true \/
     fst (MountDirCmdArgParser args arg) = true -> arg ∈ whiteListInit) /\
  CheckWhiteList "/usr/local/Ascend/driver/lib" = false /\
  ((1 <= WHITE_LIST_NUM)%nat -> CheckWhiteList "/usr/local/Ascend/driver/lib64" = true).
Proof.
  split; [exact CheckWhiteList_iff |]. split; [| split; [| split]].
  - intros f Hn Hne. rewrite CheckWhiteList_iff. split.
    + intros H. apply mountWhiteList_elem in H as [H | H]; [exact H | contradiction].
    + now apply whiteListInit_in_mountWhiteList.
  - intros args arg H.
    assert (exists ml, fst (mount_append ml arg) = true) as [ml Hml].
    { destruct H as [H | H].
      - rewrite MountFileCmdArgParser_append in H. eauto.
      - rewrite MountDirCmdArgParser_append in H. eauto. }
    apply mount_append_accepts in Hml as [Hleg Hwl].
    apply CheckWhiteList_iff, mountWhiteList_elem in Hwl as [Hin | ->]; [exact Hin |].
    apply CheckFileLegality_iff in Hleg as [[Hpos _] _]. simpl in Hpos. lia.
  - apply not_true_is_false. intros H.
    apply CheckWhiteList_iff, mountWhiteList_elem in H as [H | H]; [| discriminate].
    unfold whiteListInit in H.
    repeat (apply elem_of_cons in H as [H | H]; [discriminate |]).
    now apply elem_of_nil in H.
  - intros Hn. apply CheckWhiteList_iff. unfold mountWhiteList.
    apply elem_of_take. exists 0%nat. split; [reflexivity | lia].
Qed.

(** C8.  Every append to a mount list, by [MountFileCmdArgParser] or by
    [MountDirCmdArgParser], keeps the counters within the capacity, and
    so does every state the option loop reaches; an append to a list
    that already holds [MAX_MOUNT_NR] entries is rejected and leaves the
    record as it is (nothing is stored, nothing is dropped), and the
    invocation then fails with [-1] before anything is set up. *)
Theorem mount_list_bounded_fail_closed :
  (forall args arg, mount_inv args ->
                    mount_inv (snd (MountFileCmdArgParser args arg)) /\
                    mount_inv (snd (MountDirCmdArgParser args arg))) /\
  (forall opts, mount_inv (snd (parse_opts args_zero opts))) /\
  (forall pre args arg post w,
     parse_opts args_zero pre = (0, args) ->
     (count (files args) = MAX_MOUNT_NR ->
      MountFileCmdArgParser args arg = (false, args) /\
      Process (pre ++ ("f"%char, Some arg) :: post) w = (-1, w)) /\
     (count (dirs args) = MAX_MOUNT_NR ->
      MountDirCmdArgParser args arg = (false, args) /\
      Process (pre ++ ("i"%char, Some arg) :: post) w = (-1, w))).
Proof.
  split.
  { intros args arg [Hf Hd]. unfold mount_inv.
    rewrite MountFileCmdArgParser_append, MountDirCmdArgParser_append. simpl.
    pose proof (mount_append_count (files args) arg Hf).
    pose proof (mount_append_count (dirs args) arg Hd). auto. }
  split; [intros opts; apply parse_opts_inv, args_zero_inv |].
  intros pre args arg post w Hpre. split; intros Hfull.
  - assert (MountFileCmdArgParser args arg = (false, args)) as Hrej.
    { rewrite MountFileCmdArgParser_append, mount_append_full by exact Hfull.
      now destruct args as [? ? ? ? [? ?] ?]. }
    split; [exact Hrej |].
    apply (Process_rejected_option pre _ _ post args w Hpre).
    unfold ParseOneCmdArg. rewrite find_parser_f, Hrej. simpl. lia.
  - assert (MountDirCmdArgParser args arg = (false, args)) as Hrej.
    { rewrite MountDirCmdArgParser_append, mount_append_full by exact Hfull.
      now destruct args as [? ? ? ? ? [? ?]]. }
    split; [exact Hrej |].
    apply (Process_rejected_option pre _ _ post args w Hpre).
    unfold ParseOneCmdArg. rewrite find_parser_i, Hrej. simpl. lia.
Qed.

(** ** Further properties of the command line tool *)

(** *** Dispatch and what each parser writes *)

Lemma find_parser_spec (c : ascii) :
  find_parser g_cmdArgParsers c =
  if Ascii.eqb "d" c then Some DevicesCmdArgParser
  else if Ascii.eqb "p" c then Some PidCmdArgParser
  else if Ascii.eqb "r" c then Some RootfsCmdArgParser
  else if Ascii.eqb "o" c then Some OptionsCmdArgParser
  else if Ascii.eqb "f" c then Some MountFileCmdArgParser
  else if Ascii.eqb "i" c then Some MountDirCmdArgParser
  else None.
Proof. reflexivity. Qed.

Lemma ParseOneCmdArg_Some (args : CmdArgs) (c : ascii) (value : string)
    (parser : CmdArgParser) :
  find_parser g_cmdArgParsers c = Some parser ->
  ParseOneCmdArg args c (Some value) =
  (if fst (parser args value) then 0 else -1, snd (parser args value)).
Proof.
  intros H. unfold ParseOneCmdArg. rewrite H.
  destruct (parser args value) as [[|] args']; reflexivity.
Qed.

Lemma ParseOneCmdArg_ret (args : CmdArgs) (c : ascii) (value : option string) :
  fst (ParseOneCmdArg args c value) = 0 \/ fst (ParseOneCmdArg args c value) = -1.
Proof.
  unfold ParseOneCmdArg. destruct value as [value|]; [| now right].
  destruct (find_parser g_cmdArgParsers c) as [parser|]; [| now right].
  destruct (parser args value) as [[|] args']; simpl; auto.
Qed.

Lemma set_devices_id (args : CmdArgs) : set_devices args (devices args) = args.
Proof. now destruct args. Qed.

Lemma DevicesCmdArgParser_shape (args : CmdArgs) (arg : string) :
  exists v, snd (DevicesCmdArgParser args arg) = set_devices args v.
Proof.
  unfold DevicesCmdArgParser.
  destruct (string_forallb devices_char_ok arg); simpl.
  - destruct (strcpy_s BUF_SIZE arg); simpl; eauto.
  - exists (devices args). now rewrite set_devices_id.
Qed.

Lemma PidCmdArgParser_shape (args : CmdArgs) (arg : string) :
  snd (PidCmdArgParser args arg) = set_pid args (to_int (fst (strtol arg))).
Proof.
  unfold PidCmdArgParser.
  destruct (strtol arg) as [v r1]; simpl.
  destruct (CheckExternalFile env pidMax); simpl; [| reflexivity].
  destruct (fopen env pidMax) as [content|]; simpl; [| reflexivity].
  destruct (fgets PATH_MAX content) as [line|]; simpl; [| reflexivity].
  destruct (string_forallb isdigit (chomp (cstr line))); simpl; [| reflexivity].
  destruct (to_int v <? 0); simpl; [reflexivity |].
  destruct (strtol (chomp (cstr line))) as [m r2].
  destruct (m <=? to_int v); simpl; [reflexivity |].
  now destruct (negb _).
Qed.

Lemma RootfsCmdArgParser_shape (args : CmdArgs) (arg : string) :
  exists v, snd (RootfsCmdArgParser args arg) = set_rootfs args v.
Proof.
  unfold RootfsCmdArgParser. destruct (strcpy_s BUF_SIZE arg); simpl; [| eauto].
  destruct (negb _); simpl; eauto.
Qed.

Lemma OptionsCmdArgParser_shape (args : CmdArgs) (arg : string) :
  exists v, snd (OptionsCmdArgParser args arg) = set_options args v.
Proof.
  unfold OptionsCmdArgParser. destruct (strcpy_s BUF_SIZE arg); simpl; [| eauto].
  match goal with |- context [if ?b then _ else _] => destruct b end; simpl; eauto.
Qed.

(** What an option other than the named one leaves alone. *)
Lemma ParseOneCmdArg_frame (args : CmdArgs) (c : ascii) (value : option string) :
  (c <> "d"%char -> devices (snd (ParseOneCmdArg args c value)) = devices args) /\
  (c <> "p"%char -> pid (snd (ParseOneCmdArg args c value)) = pid args) /\
  (c <> "r"%char -> rootfs (snd (ParseOneCmdArg args c value)) = rootfs args) /\
  (c <> "o"%char -> options (snd (ParseOneCmdArg args c value)) = options args) /\
  (c <> "f"%char -> files (snd (ParseOneCmdArg args c value)) = files args) /\
  (c <> "i"%char -> dirs (snd (ParseOneCmdArg args c value)) = dirs args).
Proof.
  destruct value as [value|]; [| simpl; tauto].
  pose proof (find_parser_spec c) as Hf.
  destruct (Ascii.eqb_spec "d" c) as [<- | Hd].
  { rewrite (ParseOneCmdArg_Some _ _ _ _ Hf). simpl.
    destruct (DevicesCmdArgParser_shape args value) as [v ->]. simpl.
    repeat split; try reflexivity. congruence. }
  destruct (Ascii.eqb_spec "p" c) as [<- | Hp].
  { rewrite (ParseOneCmdArg_Some _ _ _ _ Hf). simpl.
    rewrite PidCmdArgParser_shape. simpl.
    repeat split; try reflexivity. congruence. }
  destruct (Ascii.eqb_spec "r" c) as [<- | Hr].
  { rewrite (ParseOneCmdArg_Some _ _ _ _ Hf). simpl.
    destruct (RootfsCmdArgParser_shape args value) as [v ->]. simpl.
    repeat split; try reflexivity. congruence. }
  destruct (Ascii.eqb_spec "o" c) as [<- | Ho].
  { rewrite (ParseOneCmdArg_Some _ _ _ _ Hf). simpl.
    destruct (OptionsCmdArgParser_shape args value) as [v ->]. simpl.
    repeat split; try reflexivity. congruence. }
  destruct (Ascii.eqb_spec "f" c) as [<- | Hfi].
  { rewrite (ParseOneCmdArg_Some _ _ _ _ Hf). simpl.
    rewrite MountFileCmdArgParser_append. simpl.
    repeat split; try reflexivity. congruence. }
  destruct (Ascii.eqb_spec "i" c) as [<- | Hi].
  { rewrite (ParseOneCmdArg_Some _ _ _ _ Hf). simpl.
    rewrite MountDirCmdArgParser_append. simpl.
    repeat split; try reflexivity. congruence. }
  unfold ParseOneCmdArg. rewrite Hf. simpl. tauto.
Qed.

Lemma parse_opts_ret (opts : list (ascii * option string)) : forall args,
  fst (parse_opts args opts) = 0 \/ fst (parse_opts args opts) = -1.
Proof.
  induction opts as [|[c value] opts IH]; intros args; simpl; [now left |].
  destruct (ParseOneCmdArg args c value) as [ret args'].
  destruct (ret <? 0); simpl; [now right | apply IH].
Qed.

(** An option that no state of the record lets through fails the
    invocation wherever it stands on the command line. *)
Lemma Process_option_always_rejected (pre post : list (ascii * option string))
    (c : ascii) (value : option string) (w : World) :
  (forall args, fst (ParseOneCmdArg args c value) < 0) ->
  Process (pre ++ (c, value) :: post) w = (-1, w).
Proof.
  intros Hrej. apply Process_parse_failure. rewrite parse_opts_app.
  destruct (parse_opts args_zero pre) as [ret args].
  destruct (ret <? 0); simpl; [lia |].
  specialize (Hrej args).
  destruct (ParseOneCmdArg args c value) as [ret' args']; simpl in *.
  rewrite (proj2 (Z.ltb_lt _ _) Hrej). simpl. lia.
Qed.

(** *** Options that fail the invocation *)

Lemma OptionsCmdArgParser_iff (args : CmdArgs) (arg : string) :
  fst (OptionsCmdArgParser args arg) = true <->
  (strlen arg < BUF_SIZE)%nat /\
  (arg = "NODRV,VIRTUAL" \/ arg = "NODRV" \/ arg = "VIRTUAL").
Proof.
  unfold OptionsCmdArgParser, strcpy_s.
  destruct (Nat.ltb_spec (strlen arg) BUF_SIZE) as [Hlen | Hlen]; simpl.
  2:{ split; [discriminate | intros [H _]; lia]. }
  destruct (streq arg "NODRV,VIRTUAL") eqn:E1; simpl.
  { apply streq_true in E1. tauto. }
  destruct (streq arg "NODRV") eqn:E2; simpl.
  { apply streq_true in E2. tauto. }
  destruct (streq arg "VIRTUAL") eqn:E3; simpl.
  { apply streq_true in E3. tauto. }
  apply streq_false in E1, E2, E3.
  split; [discriminate | intros [_ [H | [H | H]]]; contradiction].
Qed.

(** X1.  The options string is accepted exactly when it fits the buffer
    and is one of "NODRV,VIRTUAL", "NODRV" and "VIRTUAL", compared as
    whole strings; an invocation that carries any other options value
    fails with [-1], wherever the option stands, before anything is done
    to the process. *)
Theorem options_enumerated (args : CmdArgs) (arg : string) :
  (fst (OptionsCmdArgParser args arg) = true <->
   (strlen arg < BUF_SIZE)%nat /\
   (arg = "NODRV,VIRTUAL" \/ arg = "NODRV" \/ arg = "VIRTUAL")) /\
  (arg <> "NODRV,VIRTUAL" -> arg <> "NODRV" -> arg <> "VIRTUAL" ->
   forall pre post w, Process (pre ++ ("o"%char, Some arg) :: post) w = (-1, w)).
Proof.
  split; [apply OptionsCmdArgParser_iff |].
  intros H1 H2 H3 pre post w. apply Process_option_always_rejected.
  intros args0. rewrite (ParseOneCmdArg_Some _ _ _ OptionsCmdArgParser) by reflexivity.
  simpl. destruct (fst (OptionsCmdArgParser args0 arg)) eqn:E; [| lia].
  apply OptionsCmdArgParser_iff in E as [_ [H | [H | H]]]; contradiction.
Qed.

(** X2.  An option character outside [d p r o f i] (such as the [?]
    that [getopt_long] returns for an unknown option) and an option
    without a value are rejected with [-1], the record is left as it is,
    and the invocation fails before anything is done to the process. *)
Theorem unrecognized_option_rejected (c : ascii) (value : option string) :
  value = None \/
  (c <> "d"%char /\ c <> "p"%char /\ c <> "r"%char /\
   c <> "o"%char /\ c <> "f"%char /\ c <> "i"%char) ->
  (forall args, ParseOneCmdArg args c value = (-1, args)) /\
  (forall pre post w, Process (pre ++ (c, value) :: post) w = (-1, w)).
Proof.
  intros H.
  assert (forall args, ParseOneCmdArg args c value = (-1, args)) as Hrej.
  { intros args. destruct H as [-> | (Hd & Hp & Hr & Ho & Hf & Hi)]; [reflexivity |].
    unfold ParseOneCmdArg. destruct value as [value|]; [| reflexivity].
    rewrite find_parser_spec.
    repeat match goal with
           | |- context [Ascii.eqb ?a c] =>
               destruct (Ascii.eqb_spec a c); [congruence |]
           end.
    reflexivity. }
  split; [exact Hrej |].
  intros pre post w. apply Process_option_always_rejected.
  intros args. rewrite Hrej. simpl. lia.
Qed.

Lemma parse_opts_frame (opts : list (ascii * option string)) : forall args,
  (opt_values "d" opts = [] -> devices (snd (parse_opts args opts)) = devices args) /\
  (opt_values "p" opts = [] -> pid (snd (parse_opts args opts)) = pid args) /\
  (opt_values "r" opts = [] -> rootfs (snd (parse_opts args opts)) = rootfs args).
Proof.
  induction opts as [|[c value] opts IH]; intros args; [simpl; tauto |].
  cbn [parse_opts].
  pose proof (ParseOneCmdArg_frame args c value) as (Fd & Fp & Fr & _).
  destruct value as [value|].
  2:{ simpl. tauto. }
  destruct (ParseOneCmdArg args c (Some value)) as [ret args'] eqn:E. simpl in *.
  specialize (IH args') as (Id & Ip & Ir).
  assert (forall x : ascii, (if Ascii.eqb c x then value :: opt_values x opts
                             else opt_values x opts) = [] ->
                            c <> x /\ opt_values x opts = []) as Hnil.
  { intros x. destruct (Ascii.eqb_spec c x); [discriminate | tauto]. }
  destruct (ret <? 0); simpl.
  - repeat split; intros H; apply Hnil in H as [Hne _]; auto.
  - repeat split; intros H; apply Hnil in H as [Hne Hrest].
    + rewrite Id by exact Hrest. auto.
    + rewrite Ip by exact Hrest. auto.
    + rewrite Ir by exact Hrest. auto.
Qed.

(** X3.  The devices, rootfs and pid options are all required: an
    invocation that gives no value for one of them fails with [-1]
    before anything is done to the process, whatever else is on the
    command line. *)
Theorem required_arguments (opts : list (ascii * option string)) (w : World) :
  opt_values "d" opts = [] \/ opt_values "r" opts = [] \/ opt_values "p" opts = [] ->
  Process opts w = (-1, w).
Proof.
  intros H. apply Process_validation_failure.
  destruct (parse_opts_ret opts args_zero) as [Hz | Hm]; [right | left; lia].
  pose proof (parse_opts_frame opts args_zero) as (Fd & Fp & Fr).
  unfold IsCmdArgsValid. destruct H as [H | [H | H]].
  - rewrite (Fd H). reflexivity.
  - rewrite (Fr H). simpl. now rewrite andb_false_r.
  - rewrite (Fp H). simpl. now rewrite andb_false_r.
Qed.

(** X4.  No argument is truncated to fit: a devices, rootfs or options
    value of [BUF_SIZE] bytes or more, and a mount-file or mount-dir
    path of [PATH_MAX] bytes or more, is rejected, and the invocation
    fails with [-1] before anything is done to the process. *)
Theorem overlong_argument_rejected (c : ascii) (arg : string) :
  ((c = "d"%char \/ c = "r"%char \/ c = "o"%char) /\ (BUF_SIZE <= strlen arg)%nat) \/
  ((c = "f"%char \/ c = "i"%char) /\ (PATH_MAX <= strlen arg)%nat) ->
  (forall args, fst (ParseOneCmdArg args c (Some arg)) = -1) /\
  (forall pre post w, Process (pre ++ (c, Some arg) :: post) w = (-1, w)).
Proof.
  intros H.
  assert (forall args, fst (ParseOneCmdArg args c (Some arg)) = -1) as Hrej.
  { intros args.
    destruct H as [[[-> | [-> | ->]] Hlen] | [[-> | ->] Hlen]].
    - rewrite (ParseOneCmdArg_Some _ _ _ DevicesCmdArgParser) by reflexivity. simpl.
      destruct (fst (DevicesCmdArgParser args arg)) eqn:E; [| reflexivity].
      apply DevicesCmdArgParser_accepts in E as [_ E]. lia.
    - rewrite (ParseOneCmdArg_Some _ _ _ RootfsCmdArgParser) by reflexivity. simpl.
      unfold RootfsCmdArgParser, strcpy_s.
      destruct (Nat.ltb_spec (strlen arg) BUF_SIZE); [lia | reflexivity].
    - rewrite (ParseOneCmdArg_Some _ _ _ OptionsCmdArgParser) by reflexivity. simpl.
      destruct (fst (OptionsCmdArgParser args arg)) eqn:E; [| reflexivity].
      apply OptionsCmdArgParser_iff in E as [E _]. lia.
    - rewrite (ParseOneCmdArg_Some _ _ _ MountFileCmdArgParser) by reflexivity.
      rewrite MountFileCmdArgParser_append. simpl.
      unfold mount_append, strcpy_s.
      destruct (Nat.eqb (count (files args)) MAX_MOUNT_NR); [reflexivity |].
      destruct (Nat.ltb_spec (strlen arg) PATH_MAX); [lia | reflexivity].
    - rewrite (ParseOneCmdArg_Some _ _ _ MountDirCmdArgParser) by reflexivity.
      rewrite MountDirCmdArgParser_append. simpl.
      unfold mount_append, strcpy_s.
      destruct (Nat.eqb (count (dirs args)) MAX_MOUNT_NR); [reflexivity |].
      destruct (Nat.ltb_spec (strlen arg) PATH_MAX); [lia | reflexivity]. }
  split; [exact Hrej |].
  intros pre post w. apply Process_option_always_rejected.
  intros args. rewrite Hrej. lia.
Qed.

(** *** What an accepted argument leaves in the record *)

Lemma cstr_terminated (arg rest : string) :
  string_forallb (fun c => negb (Ascii.eqb c NUL)) arg = true ->
  cstr (arg +:+ String NUL rest) = arg.
Proof.
  induction arg as [|c arg IH]; simpl; [reflexivity |].
  destruct (Ascii.eqb c NUL); simpl; [discriminate |].
  intros H. now rewrite IH.
Qed.

Lemma string_forallb_impl (p q : ascii -> bool) (s : string) :
  (forall c, p c = true -> q c = true) ->
  string_forallb p s = true -> string_forallb q s = true.
Proof.
  intros Hpq. induction s as [|c s IH]; simpl; [reflexivity |].
  intros H. apply andb_prop in H as [Hc Hs].
  now rewrite (Hpq _ Hc), IH.
Qed.

Lemma devices_char_not_NUL (c : ascii) :
  devices_char_ok c = true -> negb (Ascii.eqb c NUL) = true.
Proof.
  destruct (Ascii.eqb_spec c NUL) as [-> | Hne]; [discriminate | reflexivity].
Qed.

(** X5.  An accepted devices, rootfs or options value is stored whole:
    after the option is accepted the field reads back as the argument,
    byte for byte, whatever the field held before (for devices also
    after a longer earlier value). *)
Theorem accepted_argument_stored_whole (args : CmdArgs) (arg : string) :
  (fst (ParseOneCmdArg args "d" (Some arg)) = 0 ->
   cstr (devices (snd (ParseOneCmdArg args "d" (Some arg)))) = arg) /\
  (fst (ParseOneCmdArg args "r" (Some arg)) = 0 ->
   rootfs (snd (ParseOneCmdArg args "r" (Some arg))) = arg) /\
  (fst (ParseOneCmdArg args "o" (Some arg)) = 0 ->
   options (snd (ParseOneCmdArg args "o" (Some arg))) = arg).
Proof.
  split; [| split].
  - rewrite (ParseOneCmdArg_Some _ _ _ DevicesCmdArgParser) by reflexivity. simpl.
    destruct (fst (DevicesCmdArgParser args arg)) eqn:E; [intros _ | discriminate].
    apply DevicesCmdArgParser_accepts in E as [Hchars Hlen].
    unfold DevicesCmdArgParser, strcpy_s. rewrite Hchars.
    rewrite (proj2 (Nat.ltb_lt _ _) Hlen). simpl. unfold poke_cstr.
    apply cstr_terminated.
    eapply string_forallb_impl; [apply devices_char_not_NUL | exact Hchars].
  - rewrite (ParseOneCmdArg_Some _ _ _ RootfsCmdArgParser) by reflexivity. simpl.
    unfold RootfsCmdArgParser, strcpy_s.
    destruct (Nat.ltb (strlen arg) BUF_SIZE); simpl; [| discriminate].
    now destruct (CheckFileLegality arg (strlen arg)).
  - rewrite (ParseOneCmdArg_Some _ _ _ OptionsCmdArgParser) by reflexivity. simpl.
    unfold OptionsCmdArgParser, strcpy_s.
    destruct (Nat.ltb (strlen arg) BUF_SIZE); simpl; [| discriminate].
    destruct (streq arg "NODRV,VIRTUAL"); simpl; [reflexivity |].
    destruct (streq arg "NODRV"); simpl; [reflexivity |].
    destruct (streq arg "VIRTUAL"); simpl; [reflexivity | discriminate].
Qed.

(** *** The mount lists *)

Lemma mount_append_accept_shape (ml : MountList) (arg : string) :
  fst (mount_append ml arg) = true ->
  (count ml < MAX_MOUNT_NR \/ MAX_MOUNT_NR < count ml)%nat /\
  snd (mount_append ml arg) =
  mkMountList (count ml + 1) (<[count ml := arg]> (paths ml)) /\
  arg ∈ whiteListInit.
Proof.
  intros Hacc. pose proof (mount_append_accepts ml arg Hacc) as [Hleg Hwl].
  revert Hacc. unfold mount_append, strcpy_s.
  destruct (Nat.eqb_spec (count ml) MAX_MOUNT_NR) as [Heq | Hne]; simpl; [discriminate |].
  destruct (Nat.ltb (strlen arg) PATH_MAX); simpl; [| discriminate].
  rewrite Hleg. simpl. intros _. split; [lia |]. split; [reflexivity |].
  apply CheckWhiteList_iff, mountWhiteList_elem in Hwl as [Hin | ->]; [exact Hin |].
  apply CheckFileLegality_iff in Hleg as [[Hpos _] _]. simpl in Hpos. lia.
Qed.

Lemma take_append_slot (l : list string) (n : nat) (x : string) :
  (n < length l)%nat -> take (n + 1) (<[n := x]> l) = (take n l ++ [x])%list.
Proof.
  intros Hlt. replace (n + 1)%nat with (S n) by lia.
  rewrite (take_S_r _ n x) by (apply list_lookup_insert_eq; lia).
  now rewrite take_insert_ge by lia.
Qed.

Lemma ParseOneCmdArg_mount_step (args args' : CmdArgs) (c : ascii) (v : string) :
  mount_wf args ->
  ParseOneCmdArg args c (Some v) = (0, args') ->
  mount_wf args' /\
  take (count (files args')) (paths (files args')) =
    (take (count (files args)) (paths (files args))
     ++ (if Ascii.eqb c "f" then [v] else []))%list /\
  take (count (dirs args')) (paths (dirs args')) =
    (take (count (dirs args)) (paths (dirs args))
     ++ (if Ascii.eqb c "i" then [v] else []))%list /\
  ((Ascii.eqb c "f" || Ascii.eqb c "i") = true -> v ∈ whiteListInit).
Proof.
  intros (Lf & Ld & Cf & Cd) Hstep.
  pose proof (ParseOneCmdArg_frame args c (Some v)) as (_ & _ & _ & _ & Ff & Fd).
  rewrite Hstep in Ff, Fd. simpl in Ff, Fd.
  destruct (Ascii.eqb_spec c "f") as [-> | Hnf].
  { rewrite (ParseOneCmdArg_Some _ _ _ MountFileCmdArgParser) in Hstep by reflexivity.
    rewrite MountFileCmdArgParser_append in Hstep. simpl in Hstep.
    destruct (fst (mount_append (files args) v)) eqn:E; [| discriminate].
    apply mount_append_accept_shape in E as (Hroom & Hshape & Hwl).
    rewrite Hshape in Hstep. inversion Hstep; subst args'. simpl.
    unfold mount_wf. simpl. rewrite length_insert.
    repeat split; auto; try lia.
    - apply take_append_slot. lia.
    - now rewrite app_nil_r. }
  destruct (Ascii.eqb_spec c "i") as [-> | Hni].
  { rewrite (ParseOneCmdArg_Some _ _ _ MountDirCmdArgParser) in Hstep by reflexivity.
    rewrite MountDirCmdArgParser_append in Hstep. simpl in Hstep.
    destruct (fst (mount_append (dirs args) v)) eqn:E; [| discriminate].
    apply mount_append_accept_shape in E as (Hroom & Hshape & Hwl).
    rewrite Hshape in Hstep. inversion Hstep; subst args'. simpl.
    unfold mount_wf. simpl. rewrite length_insert.
    repeat split; auto; try lia.
    - now rewrite app_nil_r.
    - apply take_append_slot. lia. }
  unfold mount_wf. rewrite (Ff Hnf), (Fd Hni), !app_nil_r. simpl.
  repeat split; auto. discriminate.
Qed.

Lemma parse_opts_mounts (opts : list (ascii * option string)) :
  forall args args',
    mount_wf args ->
    parse_opts args opts = (0, args') ->
    mount_wf args' /\
    take (count (files args')) (paths (files args')) =
      (take (count (files args)) (paths (files args)) ++ opt_values "f" opts)%list /\
    take (count (dirs args')) (paths (dirs args')) =
      (take (count (dirs args)) (paths (dirs args)) ++ opt_values "i" opts)%list /\
    Forall (fun p => p ∈ whiteListInit) (opt_values "f" opts ++ opt_values "i" opts).
Proof.
  induction opts as [|[c value] opts IH]; intros args args' Hwf Hparse.
  - simpl in Hparse. inversion Hparse; subst. simpl. rewrite !app_nil_r.
    split; [exact Hwf |]. repeat split; auto.
  - cbn [parse_opts] in Hparse.
    destruct (ParseOneCmdArg args c value) as [ret args1] eqn:E.
    destruct (ret <? 0) eqn:Hret; [discriminate |].
    destruct value as [value|]; [| simpl in E; inversion E; subst; discriminate].
    assert (ret = 0) as ->.
    { pose proof (ParseOneCmdArg_ret args c (Some value)) as H. rewrite E in H. simpl in H.
      apply Z.ltb_ge in Hret. lia. }
    pose proof (ParseOneCmdArg_mount_step _ _ _ _ Hwf E) as (Hwf1 & Hf1 & Hd1 & Hwl).
    specialize (IH _ _ Hwf1 Hparse) as (Hwf' & Hf' & Hd' & Hall).
    split; [exact Hwf' |]. cbn [opt_values].
    rewrite Hf', Hd', Hf1, Hd1, <- !app_assoc.
    repeat split.
    + now destruct (Ascii.eqb c "f").
    + now destruct (Ascii.eqb c "i").
    + apply Forall_app in Hall as [Hallf Halli].
      destruct (Ascii.eqb c "f") eqn:Ef; destruct (Ascii.eqb c "i") eqn:Ei;
        simpl in Hwl; apply Forall_app; split;
        try assumption; constructor; auto.
Qed.

(** X6.  After the option loop has accepted every option, the file list
    holds the mount-file values and the directory list the mount-dir
    values, each in command line order with the counter equal to their
    number, and every one of them is a path of the white list. *)
Theorem mount_lists_in_order (opts : list (ascii * option string)) (args : CmdArgs) :
  parse_opts args_zero opts = (0, args) ->
  take (count (files args)) (paths (files args)) = opt_values "f" opts /\
  count (files args) = length (opt_values "f" opts) /\
  take (count (dirs args)) (paths (dirs args)) = opt_values "i" opts /\
  count (dirs args) = length (opt_values "i" opts) /\
  Forall (fun p => p ∈ whiteListInit) (opt_values "f" opts ++ opt_values "i" opts).
Proof.
  intros Hparse.
  assert (mount_wf args_zero) as Hwf0.
  { unfold mount_wf, args_zero. simpl. rewrite length_replicate. lia. }
  destruct (parse_opts_mounts opts _ _ Hwf0 Hparse) as ((Lf & Ld & Cf & Cd) & Hf & Hd & Hall).
  simpl in Hf, Hd.
  repeat split; auto.
  - rewrite <- Hf, length_take. lia.
  - rewrite <- Hd, length_take. lia.
Qed.

(** *** The id list and the devices array *)

Lemma store_ids_bounds (idListSize : nat) (toks : list string) :
  forall idx idList,
    length (snd (fst (store_ids idListSize toks idx idList))) = length idList /\
    drop idListSize (snd (fst (store_ids idListSize toks idx idList))) =
      drop idListSize idList /\
    (fst (fst (store_ids idListSize toks idx idList)) = 0 ->
     (idx <= idListSize)%nat ->
     (snd (store_ids idListSize toks idx idList) <= idListSize)%nat) /\
    (fst (fst (store_ids idListSize toks idx idList)) = -1 ->
     snd (store_ids idListSize toks idx idList) = idListSize).
Proof.
  induction toks as [|tok toks IH]; intros idx idList; simpl.
  - repeat split; auto; discriminate.
  - destruct (Nat.leb_spec idListSize idx) as [Hfull | Hroom]; simpl.
    { repeat split; auto; discriminate. }
    destruct (snd (strtoul tok)); simpl.
    { rewrite length_insert, drop_insert_lt by lia. repeat split; auto; discriminate. }
    destruct (IH (idx + 1)%nat (<[idx := id_of tok]> idList)) as (Hlen & Hdrop & Hok & Hfail).
    rewrite length_insert in Hlen. rewrite drop_insert_lt in Hdrop by lia.
    repeat split; auto. intros Hz _. apply Hok; [exact Hz | lia].
Qed.

(** X8.  [ParseDeviceIDs] writes only to the first [idListSize] elements
    of the id array: the elements beyond are as before and the array
    keeps its length.  When it returns [0] the size it reports is at
    most the capacity it was given; when it returns [-1] the size is
    left as it was. *)
Theorem ParseDeviceIDs_bounds (idList : list Z) (idListSize : nat) (devs : string) :
  let ret := fst (fst (fst (ParseDeviceIDs idList idListSize devs))) in
  let idList' := snd (fst (fst (ParseDeviceIDs idList idListSize devs))) in
  let n := snd (fst (ParseDeviceIDs idList idListSize devs)) in
  length idList' = length idList /\
  drop idListSize idList' = drop idListSize idList /\
  (ret = 0 -> (n <= idListSize)%nat) /\
  (ret = -1 -> n = idListSize).
Proof.
  intros ret idList' n. subst ret idList' n. rewrite ParseDeviceIDs_spec.
  destruct (store_ids_bounds idListSize (tokens devs) 0 idList) as (H1 & H2 & H3 & H4).
  repeat split; auto. intros Hz. apply H3; [exact Hz | lia].
Qed.

Lemma cut_only_refl (s : string) : cut_only s s.
Proof. induction s as [|c s IH]; simpl; auto. Qed.

Lemma cut_only_trans (a b c : string) : cut_only a b -> cut_only b c -> cut_only a c.
Proof.
  revert b c. induction a as [|x a IH]; intros [|y b] [|z c]; simpl; try tauto.
  intros [Hxy Hab] [Hyz Hbc]. split; [| eauto].
  destruct Hxy as [-> | [-> ->]]; [exact Hyz |].
  destruct Hyz as [-> | [Hy _]]; [now right | discriminate].
Qed.

Lemma string_app_cons (x : ascii) (a b : string) :
  String x a +:+ b = String x (a +:+ b).
Proof. reflexivity. Qed.

Lemma cut_only_app (a a' b b' : string) :
  cut_only a a' -> cut_only b b' -> cut_only (a +:+ b) (a' +:+ b').
Proof.
  revert a'. induction a as [|x a IH]; intros [|y a']; simpl; try tauto.
  intros [Hxy Ha] Hb. rewrite ?string_app_cons. simpl. split; auto.
Qed.

Lemma string_app_assoc (a b c : string) : (a +:+ b) +:+ c = a +:+ (b +:+ c).
Proof.
  induction a as [|x a IH]; [reflexivity |].
  change (String x ((a +:+ b) +:+ c) = String x (a +:+ (b +:+ c))). now f_equal.
Qed.

Lemma is_delim_comma (c : ascii) : is_delim "," c = true -> c = ","%char.
Proof.
  simpl. rewrite orb_false_r. intros H. symmetry. now apply Ascii.eqb_eq.
Qed.

Lemma find_begin_app (sep s : string) :
  fst (find_begin sep s) +:+ snd (find_begin sep s) = s.
Proof.
  induction s as [|c s IH]; simpl; [reflexivity |].
  destruct (Ascii.eqb c NUL); simpl; [reflexivity |].
  destruct (is_delim sep c); simpl; [| reflexivity].
  destruct (find_begin sep s) as [skipped r]; simpl in *.
  rewrite string_app_cons. now f_equal.
Qed.

Lemma find_rest_cut (s : string) :
  cut_only s (snd (fst (find_rest "," s)) +:+ snd (find_rest "," s)).
Proof.
  induction s as [|c s IH]; [simpl; auto |].
  cbn [find_rest].
  destruct (Ascii.eqb c NUL) eqn:En; [apply cut_only_refl |].
  destruct (is_delim "," c) eqn:Ed.
  - apply is_delim_comma in Ed. subst c. cbn [fst snd]. rewrite ?string_app_cons.
    simpl. split; [now right | apply cut_only_refl].
  - destruct (find_rest "," s) as [[tok mem] r]. cbn [fst snd] in *.
    rewrite ?string_app_cons. simpl. split; [now left | exact IH].
Qed.

Lemma strtok_s_cut (before ctx : string) :
  cut_only (before +:+ ctx)
           (snd (fst (strtok_s "," before ctx)) +:+ snd (strtok_s "," before ctx)).
Proof.
  unfold strtok_s.
  pose proof (find_begin_app "," ctx) as Hb.
  destruct (find_begin "," ctx) as [skipped b]. simpl in Hb.
  pose proof (find_rest_cut b) as Hr.
  destruct (find_rest "," b) as [[tok mem] r]. simpl in *.
  rewrite <- Hb, !string_app_assoc.
  apply cut_only_app; [apply cut_only_refl |].
  apply cut_only_app; [apply cut_only_refl | exact Hr].
Qed.

Lemma ParseDeviceIDs_loop_cut (fuel idListSize : nat) :
  forall token idx idList before ctx r,
    ParseDeviceIDs_loop fuel idListSize token idx idList before ctx = Some r ->
    cut_only (before +:+ ctx) (snd r).
Proof.
  induction fuel as [|fuel IH]; intros token idx idList before ctx r.
  - destruct token; simpl; [discriminate |].
    intros H; inversion H; subst. apply cut_only_refl.
  - destruct token as [tok|]; simpl.
    2:{ intros H; inversion H; subst. apply cut_only_refl. }
    destruct (Nat.leb idListSize idx).
    { intros H; inversion H; subst. apply cut_only_refl. }
    destruct (strtoul tok) as [v range]. destruct range.
    { intros H; inversion H; subst. apply cut_only_refl. }
    pose proof (strtok_s_cut before ctx) as Hcut.
    destruct (strtok_s "," before ctx) as [[token' before'] ctx']. simpl in Hcut.
    intros H. apply IH in H. eapply cut_only_trans; eassumption.
Qed.

Lemma ParseDeviceIDs_cut (idList : list Z) (idListSize : nat) (devs : string) :
  cut_only devs (snd (ParseDeviceIDs idList idListSize devs)).
Proof.
  unfold ParseDeviceIDs.
  pose proof (strtok_s_cut EmptyString devs) as Hcut.
  destruct (strtok_s "," EmptyString devs) as [[token before] ctx]. simpl in Hcut.
  destruct (ParseDeviceIDs_loop _ _ _ _ _ _ _) as [r|] eqn:E; [| apply cut_only_refl].
  apply ParseDeviceIDs_loop_cut in E. eapply cut_only_trans; eassumption.
Qed.

Lemma SetupContainer_args (args : CmdArgs) (w : World) :
  snd (fst (SetupContainer args w)) = snd (fst (fst (DoPrepare args InitParsedConfig w))).
Proof.
  unfold SetupContainer. unfold_M.
  destruct (DoPrepare args InitParsedConfig w) as [[[ret args'] cfg] w1]. simpl.
  destruct (ret <? 0); [reflexivity |].
  unfold call_EnterNsByPath, call_DoMounting, call_SetupCgroup, call_EnterNsByFd,
    emit, sys_close. unfold_M. simpl.
  repeat match goal with
         | |- context [if ?b then _ else _] => destruct b; simpl
         end; reflexivity.
Qed.

Lemma DoPrepare_devices_cut (args : CmdArgs) (cfg : ParsedConfig) (w : World) :
  cut_only (devices args) (devices (snd (fst (fst (DoPrepare args cfg w))))).
Proof.
  unfold DoPrepare.
  destruct (strcpy_s BUF_SIZE (rootfs args)) as [r|]; [| apply cut_only_refl].
  pose proof (ParseDeviceIDs_cut (cfg_devices (with_rootfs cfg r))
                (devicesNr (with_rootfs cfg r)) (devices args)) as Hcut.
  destruct (ParseDeviceIDs _ _ _) as [[[pret idList] n] devs]. simpl in Hcut.
  destruct (pret <? 0); [exact Hcut |].
  destruct (GetNsPath env _ _) as [nsPath|]; [| exact Hcut].
  destruct (GetCgroupPath env _) as [cg|]; [| exact Hcut].
  destruct (GetSelfNsPath env _) as [originNsPath|]; [| exact Hcut].
  unfold_M. unfold sys_open. simpl.
  now destruct (open_rdonly env originNsPath <? 0).
Qed.

(** X9.  The setup sequence changes nothing in the raw invocation record
    but the devices array, and in that array it only overwrites
    separators with terminators: every other byte, and the length, are
    as before. *)
Theorem setup_changes_separators_only (args : CmdArgs) (w : World) :
  let args' := snd (fst (SetupContainer args w)) in
  args' = set_devices args (devices args') /\
  cut_only (devices args) (devices args').
Proof.
  intros args'. subst args'. rewrite SetupContainer_args. split.
  - apply DoPrepare_frame.
  - apply DoPrepare_devices_cut.
Qed.

(** *** The setup sequence as a whole *)

Lemma DoPrepare_trace (args : CmdArgs) (cfg : ParsedConfig) (w : World) :
  forall ret args' cfg' w',
    DoPrepare args cfg w = ((ret, args', cfg'), w') ->
    (ret = -1 /\
     (trace w' = trace w \/
      exists path fd, fd < 0 /\ trace w' = (trace w ++ [EvOpen path fd])%list)) \/
    (ret = 0 /\
     exists path, trace w' = (trace w ++ [EvOpen path (originNsFd cfg')])%list).
Proof.
  intros ret args' cfg' w'. unfold DoPrepare.
  destruct (strcpy_s BUF_SIZE (rootfs args)) as [r|].
  2:{ unfold_M. intros H; inversion H; subst. left. auto. }
  destruct (ParseDeviceIDs _ _ _) as [[[pret idList] n] devs].
  destruct (pret <? 0).
  { unfold_M. intros H; inversion H; subst. left. auto. }
  destruct (GetNsPath env _ _) as [nsPath|].
  2:{ unfold_M. intros H; inversion H; subst. left. auto. }
  destruct (GetCgroupPath env _) as [cg|].
  2:{ unfold_M. intros H; inversion H; subst. left. auto. }
  destruct (GetSelfNsPath env _) as [originNsPath|].
  2:{ unfold_M. intros H; inversion H; subst. left. auto. }
  unfold_M. unfold sys_open. simpl.
  destruct (Z.ltb_spec (open_rdonly env originNsPath) 0) as [Hneg | Hok];
    intros H; inversion H; subst; simpl.
  - left. split; [reflexivity |]. right. eauto.
  - right. split; [reflexivity |]. eauto.
Qed.

(** The outcome of [SetupContainer] once preparation has succeeded. *)
Lemma SetupContainer_after_prepare (args : CmdArgs) (w : World)
    (args1 : CmdArgs) (cfg : ParsedConfig) (w1 : World) :
  DoPrepare args InitParsedConfig w = ((0, args1, cfg), w1) ->
  let e := EnterNsByPath env (containerNsPath cfg) in
  let m := DoMounting env cfg (files args1) (dirs args1) in
  let c := SetupCgroup env cfg (files args1) (dirs args1) in
  let b := EnterNsByFd env (originNsFd cfg) in
  SetupContainer args w =
  ((setup_result e m c b, args1),
   mkWorld (setup_ns (mnt_ns w) (containerNsPath cfg) e m c b)
           (fds w)
           (trace w1 ++ setup_events (originNsFd cfg) (containerNsPath cfg) e m c b)).
Proof.
  intros Hprep e m c b. subst e m c b.
  pose proof (DoPrepare_effects _ _ _ _ _ _ _ Hprep) as (_ & Hns & _ & Hok & _).
  destruct (Hok eq_refl) as [_ Hfds].
  unfold SetupContainer. unfold_M. rewrite Hprep. simpl.
  unfold call_EnterNsByPath, call_DoMounting, call_SetupCgroup, call_EnterNsByFd,
    emit, sys_close, setup_result, setup_ns, setup_events.
  unfold_M. simpl.
  destruct (EnterNsByPath env (containerNsPath cfg) <? 0); simpl.
  { now rewrite Hns, Hfds, fd_remove_head, <- app_assoc. }
  destruct (DoMounting env cfg (files args1) (dirs args1) <? 0); simpl.
  { now rewrite Hfds, fd_remove_head, <- !app_assoc. }
  destruct (SetupCgroup env cfg (files args1) (dirs args1) <? 0); simpl.
  { now rewrite Hfds, fd_remove_head, <- !app_assoc. }
  rewrite Hfds. simpl. rewrite Z.eqb_refl.
  destruct (EnterNsByFd env (originNsFd cfg) <? 0); simpl;
    now rewrite Z.eqb_refl, <- !app_assoc.
Qed.

(** The three shapes an invocation can take: it stops before or at the
    opening of the namespace file, or it runs the setup sequence. *)
Lemma Process_outcome (opts : list (ascii * option string)) (w : World) :
  fds (snd (Process opts w)) = fds w /\
  ((fst (Process opts w) = -1 /\ mnt_ns (snd (Process opts w)) = mnt_ns w /\
    (trace (snd (Process opts w)) = trace w \/
     exists path fd, fd < 0 /\
       trace (snd (Process opts w)) = (trace w ++ [EvOpen path fd])%list)) \/
   (exists path fd nsPath e m c b,
      0 <= fd /\
      fst (Process opts w) = setup_result e m c b /\
      mnt_ns (snd (Process opts w)) = setup_ns (mnt_ns w) nsPath e m c b /\
      trace (snd (Process opts w)) =
        (trace w ++ EvOpen path fd :: setup_events fd nsPath e m c b)%list)).
Proof.
  unfold Process. destruct (parse_opts args_zero opts) as [ret args].
  destruct (ret <? 0); [simpl; split; [reflexivity | left; auto] |].
  destruct (IsCmdArgsValid args); [| simpl; split; [reflexivity | left; auto]].
  cbn [negb]. unfold_M.
  destruct (DoPrepare args InitParsedConfig w) as [[[pret args1] cfg] w1] eqn:Hprep.
  pose proof (DoPrepare_effects _ _ _ _ _ _ _ Hprep) as (_ & Hns & _ & Hok & Hfail).
  destruct (DoPrepare_trace _ _ _ _ _ _ _ Hprep) as [[-> Htr] | [-> [path Htr]]].
  - assert (SetupContainer args w = ((-1, args1), w1)) as ->.
    { unfold SetupContainer. unfold_M. now rewrite Hprep. }
    simpl. split; [now apply Hfail |]. left. auto.
  - rewrite (SetupContainer_after_prepare _ _ _ _ _ Hprep).
    destruct (Hok eq_refl) as [Hfd _].
    remember (setup_result (EnterNsByPath env (containerNsPath cfg))
                (DoMounting env cfg (files args1) (dirs args1))
                (SetupCgroup env cfg (files args1) (dirs args1))
                (EnterNsByFd env (originNsFd cfg))) as r eqn:Hr.
    assert (r = 0 \/ r = -1) as Hcases.
    { subst r. unfold setup_result. destruct (_ || _ || _ || _); auto. }
    assert ((if r <? 0 then r else 0) = r) as Hret.
    { destruct Hcases as [-> | ->]; reflexivity. }
    cbn [fst snd]. 
    assert (forall w', (if r <? 0 then M_ret Z r else M_ret Z 0) w' =
                       ((if r <? 0 then r else 0, w') : Z * World)) as Hm.
    { intros w'. now destruct (r <? 0). }
    rewrite Hm, Hret. cbn [fst snd fds mnt_ns trace].
    split; [reflexivity |]. right.
    exists path, (originNsFd cfg), (containerNsPath cfg).
    do 4 eexists. split; [exact Hfd |]. split; [exact Hr |]. split; [reflexivity |].
    now rewrite Htr, <- app_assoc.
Qed.

Ltac elem_cases H :=
  repeat (apply elem_of_cons in H as [H | H];
          [try discriminate H; try (inversion H; subst; clear H) |]);
  try (apply elem_of_nil in H; contradiction).

Ltac elem_split H :=
  repeat (apply elem_of_cons in H as [H | H]; [try discriminate H |]);
  try (apply elem_of_nil in H; contradiction).

Ltac elem_here :=
  solve [repeat (first [apply list_elem_of_here | apply list_elem_of_further])].

(** X10.  The descriptor of the original namespace is never leaked:
    after every invocation, whether it succeeds or fails and wherever it
    fails, the open descriptors are those of before. *)
Theorem descriptor_never_leaked (opts : list (ascii * option string)) (w : World) :
  fds (snd (Process opts w)) = fds w.
Proof. apply Process_outcome. Qed.

(** X11.  [Process] returns [0] or [-1].  It returns [0] only if the
    namespace file was opened, the container's namespace entered, the
    mounts made, the cgroup configured and the original namespace
    entered again through the saved descriptor, all successfully and in
    this order, followed by the close; the process is then in the
    namespace it started in. *)
Theorem success_means_restored (opts : list (ascii * option string)) (w : World) :
  (fst (Process opts w) = 0 \/ fst (Process opts w) = -1) /\
  (fst (Process opts w) = 0 ->
   mnt_ns (snd (Process opts w)) = mnt_ns w /\
   exists path fd nsPath e m c b,
     0 <= fd /\ 0 <= e /\ 0 <= m /\ 0 <= c /\ 0 <= b /\
     trace (snd (Process opts w)) =
     (trace w ++ [ EvOpen path fd; EvEnterNsByPath nsPath e; EvDoMounting m;
                   EvSetupCgroup c; EvEnterNsByFd fd b; EvClose fd ])%list).
Proof.
  destruct (Process_outcome opts w) as
    [_ [(Hret & _) | (path & fd & nsPath & e & m & c & b & Hfd & Hret & Hns & Htr)]].
  { split; [now right | intros H; lia]. }
  rewrite Hret, Hns, Htr. unfold setup_result, setup_ns, setup_events.
  destruct (Z.ltb_spec e 0); simpl; [split; [now right | discriminate] |].
  destruct (Z.ltb_spec m 0); simpl; [split; [now right | discriminate] |].
  destruct (Z.ltb_spec c 0); simpl; [split; [now right | discriminate] |].
  destruct (Z.ltb_spec b 0); simpl; [split; [now right | discriminate] |].
  split; [now left |]. intros _. split; [reflexivity |].
  exists path, fd, nsPath, e, m, c, b. repeat split; auto.
Qed.

(** X12.  The steps are attempted strictly in order: the mounts only
    after the container's namespace was entered successfully, the cgroup
    configuration only after the mounts succeeded, the return to the
    original namespace only after the cgroup configuration succeeded;
    and whenever a namespace was entered, its descriptor had been opened
    before and is closed last. *)
Theorem steps_in_order (opts : list (ascii * option string)) (w : World) :
  exists evs,
    trace (snd (Process opts w)) = (trace w ++ evs)%list /\
    (forall m, EvDoMounting m ∈ evs ->
       exists p e, 0 <= e /\ EvEnterNsByPath p e ∈ evs) /\
    (forall c, EvSetupCgroup c ∈ evs ->
       exists m, 0 <= m /\ EvDoMounting m ∈ evs) /\
    (forall fd b, EvEnterNsByFd fd b ∈ evs ->
       exists c, 0 <= c /\ EvSetupCgroup c ∈ evs) /\
    (forall p e, EvEnterNsByPath p e ∈ evs ->
       exists path fd, 0 <= fd /\ head evs = Some (EvOpen path fd) /\
                       last evs = Some (EvClose fd)).
Proof.
  destruct (Process_outcome opts w) as
    [_ [(_ & _ & [Htr | (path & fd & Hfd & Htr)])
       | (path & fd & nsPath & e & m & c & b & Hfd & _ & _ & Htr)]].
  - exists []. rewrite app_nil_r. split; [exact Htr |].
    repeat split; intros; exfalso; eapply not_elem_of_nil; eassumption.
  - exists [EvOpen path fd]. split; [exact Htr |].
    repeat split; intros; match goal with H : _ ∈ _ |- _ => elem_cases H end.
  - exists (EvOpen path fd :: setup_events fd nsPath e m c b). split; [exact Htr |].
    unfold setup_events.
    destruct (Z.ltb_spec e 0); simpl;
      [| destruct (Z.ltb_spec m 0); simpl;
         [| destruct (Z.ltb_spec c 0); simpl]];
      (split; [| split; [| split]]); intros;
      match goal with H : _ ∈ _ |- _ => elem_split H end;
      first [ exists path, fd; split; [exact Hfd | split; reflexivity]
            | exists nsPath, e; split; [lia | elem_here]
            | exists m; split; [lia | elem_here]
            | exists c; split; [lia | elem_here] ].
Qed.

(** X13.  No failure path goes back: when an invocation fails after the
    container's namespace was entered successfully (the mounts, the
    cgroup configuration or the return itself failed), the process is
    left in the container's namespace. *)
Theorem failure_after_entry_stays_in_container
    (opts : list (ascii * option string)) (w : World) (evs : list Event)
    (p : string) (e : Z) :
  trace (snd (Process opts w)) = (trace w ++ evs)%list ->
  fst (Process opts w) = -1 ->
  EvEnterNsByPath p e ∈ evs -> 0 <= e ->
  mnt_ns (snd (Process opts w)) = TargetNs p.
Proof.
  intros Hevs Hfail Hin He.
  destruct (Process_outcome opts w) as
    [_ [(_ & _ & [Htr | (path & fd & Hfd & Htr)])
       | (path & fd & nsPath & e' & m & c & b & Hfd & Hret & Hns & Htr)]].
  - rewrite Hevs in Htr. rewrite <- (app_nil_r (trace w)) in Htr at 2.
    apply app_inv_head in Htr. subst evs. elem_cases Hin.
  - rewrite Hevs in Htr. apply app_inv_head in Htr. subst evs. elem_cases Hin.
  - rewrite Hevs in Htr. apply app_inv_head in Htr. subst evs.
    rewrite Hns. rewrite Hret in Hfail. revert Hin Hfail.
    unfold setup_events, setup_result, setup_ns.
    destruct (Z.ltb_spec e' 0); simpl.
    { intros Hin _. elem_cases Hin. lia. }
    destruct (m <? 0); simpl; [intros Hin _; now elem_cases Hin |].
    destruct (c <? 0); simpl; [intros Hin _; now elem_cases Hin |].
    destruct (b <? 0); simpl; [intros Hin _; now elem_cases Hin | discriminate].
Qed.

(** *** The pid argument as [strtol] reads it *)

Lemma isdigit_plain (c : ascii) :
  isdigit c = true ->
  isspace c = false /\ Ascii.eqb c NUL = false /\ is_delim "," c = false /\
  take_sign (String c EmptyString) = (false, String c EmptyString) /\
  c <> "-"%char /\ c <> "+"%char.
Proof.
  destruct c as [[] [] [] [] [] [] [] []]; vm_compute; intros H;
    try discriminate H; repeat split; discriminate.
Qed.

Lemma take_sign_digit (c : ascii) (s : string) :
  isdigit c = true -> take_sign (String c s) = (false, String c s).
Proof.
  intros H. destruct (isdigit_plain c H) as (_ & _ & _ & _ & Hm & Hp).
  unfold take_sign.
  destruct c as [[] [] [] [] [] [] [] []]; try reflexivity; congruence.
Qed.

Lemma digits_value_app (ds rest : string) :
  string_forallb isdigit ds = true ->
  (rest = EmptyString \/ exists c r, rest = String c r /\ isdigit c = false) ->
  forall acc, digits_value acc (ds +:+ rest) = digits_value acc ds.
Proof.
  intros Hds Hrest. induction ds as [|d ds IH]; intros acc.
  - destruct Hrest as [-> | (c & r & -> & Hc)]; [reflexivity |].
    change (EmptyString +:+ String c r) with (String c r).
    cbn [digits_value]. now rewrite Hc.
  - cbn [string_forallb] in Hds. apply andb_prop in Hds as [Hd Hds].
    rewrite string_app_cons. cbn [digits_value]. rewrite Hd. now apply IH.
Qed.

Lemma skip_space_app (ws s : string) :
  string_forallb isspace ws = true -> skip_space (ws +:+ s) = skip_space s.
Proof.
  induction ws as [|c ws IH]; [reflexivity |].
  cbn [string_forallb]. intros H. apply andb_prop in H as [Hc Hws].
  rewrite string_app_cons. cbn [skip_space]. rewrite Hc. now apply IH.
Qed.

Lemma numeral_value_padded (ws ds rest : string) :
  string_forallb isspace ws = true ->
  string_forallb isdigit ds = true ->
  ds <> EmptyString ->
  (rest = EmptyString \/ exists c r, rest = String c r /\ isdigit c = false) ->
  numeral_value (ws +:+ ds +:+ rest) = numeral_value ds.
Proof.
  intros Hws Hds Hne Hrest. unfold numeral_value.
  rewrite skip_space_app by exact Hws.
  destruct ds as [|d ds]; [congruence |].
  pose proof Hds as Hds'. cbn [string_forallb] in Hds'. apply andb_prop in Hds' as [Hd _].
  destruct (isdigit_plain d Hd) as (Hsp & _).
  rewrite string_app_cons. cbn [skip_space]. rewrite Hsp.
  rewrite !take_sign_digit by exact Hd.
  rewrite <- string_app_cons. now rewrite digits_value_app.
Qed.

(** X14.  The pid argument is read the way [strtol] reads it and
    nothing checks what surrounds the number: white space in front of
    the digits and any text after them are ignored, so that the
    argument is handled exactly as the digits alone would be. *)
Theorem pid_text_around_number_ignored (args : CmdArgs) (ws ds rest : string) :
  string_forallb isspace ws = true ->
  string_forallb isdigit ds = true ->
  ds <> EmptyString ->
  (rest = EmptyString \/ exists c r, rest = String c r /\ isdigit c = false) ->
  PidCmdArgParser args (ws +:+ ds +:+ rest) = PidCmdArgParser args ds.
Proof.
  intros Hws Hds Hne Hrest.
  assert (strtol (ws +:+ ds +:+ rest) = strtol ds) as Heq.
  { unfold strtol. now rewrite numeral_value_padded. }
  unfold PidCmdArgParser. now rewrite Heq.
Qed.

(** *** Paths that fail the invocation *)

Lemma mount_option_verdict (args : CmdArgs) (c : ascii) (p : string) :
  c = "f"%char \/ c = "i"%char ->
  fst (ParseOneCmdArg args c (Some p)) = 0 ->
  CheckFileLegality p (strlen p) = true /\ p ∈ whiteListInit.
Proof.
  intros [-> | ->].
  - rewrite (ParseOneCmdArg_Some _ _ _ MountFileCmdArgParser) by reflexivity.
    rewrite MountFileCmdArgParser_append. simpl.
    destruct (fst (mount_append (files args) p)) eqn:E; [intros _ | discriminate].
    split; [now apply mount_append_accepts in E | now apply mount_append_accept_shape in E].
  - rewrite (ParseOneCmdArg_Some _ _ _ MountDirCmdArgParser) by reflexivity.
    rewrite MountDirCmdArgParser_append. simpl.
    destruct (fst (mount_append (dirs args) p)) eqn:E; [intros _ | discriminate].
    split; [now apply mount_append_accepts in E | now apply mount_append_accept_shape in E].
Qed.

Lemma RootfsCmdArgParser_iff (args : CmdArgs) (p : string) :
  fst (RootfsCmdArgParser args p) = true <->
  (strlen p < BUF_SIZE)%nat /\ CheckFileLegality p (strlen p) = true.
Proof.
  unfold RootfsCmdArgParser, strcpy_s.
  destruct (Nat.ltb_spec (strlen p) BUF_SIZE); simpl.
  - destruct (CheckFileLegality p (strlen p)); simpl; split; auto; intros [_ H']; auto.
  - split; [discriminate | intros [H' _]; lia].
Qed.

(** X15.  A path that is empty, longer than [PATH_MAX] or holds a
    character [IsValidChar] refuses fails the legality check whatever
    the file system holds; and a rootfs, mount-file or mount-dir value
    that fails the legality check fails the invocation with [-1],
    wherever the option stands, before anything is done to the
    process. *)
Theorem illegal_path_fails_invocation (c : ascii) (p : string) :
  (strlen p = 0%nat \/ (PATH_MAX < strlen p)%nat \/ string_forallb IsValidChar p = false ->
   CheckFileLegality p (strlen p) = false) /\
  (CheckFileLegality p (strlen p) = false ->
   c = "r"%char \/ c = "f"%char \/ c = "i"%char ->
   forall pre post w, Process (pre ++ (c, Some p) :: post) w = (-1, w)).
Proof.
  split.
  - intros H. apply not_true_is_false. intros Hleg.
    apply CheckFileLegality_iff in Hleg as ([Hpos Hmax] & Hchars & _).
    destruct H as [H | [H | H]]; [lia | lia | congruence].
  - intros Hleg Hc pre post w. apply Process_option_always_rejected. intros args.
    destruct (ParseOneCmdArg_ret args c (Some p)) as [Hz | Hm]; [| lia].
    exfalso. destruct Hc as [-> | Hc].
    + rewrite (ParseOneCmdArg_Some _ _ _ RootfsCmdArgParser) in Hz by reflexivity.
      simpl in Hz. destruct (fst (RootfsCmdArgParser args p)) eqn:E; [| discriminate].
      apply RootfsCmdArgParser_iff in E as [_ E]. congruence.
    + apply (mount_option_verdict args c p Hc) in Hz as [Hz _]. congruence.
Qed.

(** X16.  Only the mount paths are held against the white list: a
    mount-file or mount-dir value that is not one of its four paths
    fails the invocation with [-1] before anything is done to the
    process, while a rootfs value is accepted exactly when it fits the
    buffer and passes the legality check. *)
Theorem whitelist_applies_to_mounts_only (args : CmdArgs) (c : ascii) (p : string) :
  (p ∉ whiteListInit -> c = "f"%char \/ c = "i"%char ->
   forall pre post w, Process (pre ++ (c, Some p) :: post) w = (-1, w)) /\
  (fst (ParseOneCmdArg args "r" (Some p)) = 0 <->
   (strlen p < BUF_SIZE)%nat /\ CheckFileLegality p (strlen p) = true).
Proof.
  split.
  - intros Hnot Hc pre post w. apply Process_option_always_rejected. intros args0.
    destruct (ParseOneCmdArg_ret args0 c (Some p)) as [Hz | Hm]; [| lia].
    apply (mount_option_verdict args0 c p Hc) in Hz as [_ Hz]. contradiction.
  - rewrite (ParseOneCmdArg_Some _ _ _ RootfsCmdArgParser) by reflexivity. simpl.
    rewrite <- (RootfsCmdArgParser_iff args p).
    destruct (fst (RootfsCmdArgParser args p)); split; intros H'; auto; discriminate.
Qed.

(** *** A list of device numbers, written and read back *)

Lemma string_length_app (a b : string) :
  String.length (a +:+ b) = (String.length a + String.length b)%nat.
Proof.
  induction a as [|x a IH]; [reflexivity |].
  rewrite string_app_cons. simpl. now rewrite IH.
Qed.

Lemma find_begin_digit (d : ascii) (s : string) :
  isdigit d = true -> find_begin "," (String d s) = (EmptyString, String d s).
Proof.
  intros Hd. destruct (isdigit_plain d Hd) as (_ & Hn & Hc & _).
  cbn [find_begin]. now rewrite Hn, Hc.
Qed.

Lemma find_rest_digits_end (tok tail : string) :
  string_forallb isdigit tok = true ->
  (tail = EmptyString \/ exists r, tail = String NUL r) ->
  find_rest "," (tok +:+ tail) = (tok, tok, tail).
Proof.
  intros Htok Htail. induction tok as [|d tok IH].
  - destruct Htail as [-> | (r & ->)]; reflexivity.
  - cbn [string_forallb] in Htok. apply andb_prop in Htok as [Hd Htok].
    destruct (isdigit_plain d Hd) as (_ & Hn & Hc & _).
    rewrite string_app_cons. cbn [find_rest]. rewrite Hn, Hc, (IH Htok). reflexivity.
Qed.

Lemma find_rest_digits_comma (tok rest : string) :
  string_forallb isdigit tok = true ->
  find_rest "," (tok +:+ String "," rest) = (tok, tok +:+ String NUL EmptyString, rest).
Proof.
  intros Htok. induction tok as [|d tok IH].
  - reflexivity.
  - cbn [string_forallb] in Htok. apply andb_prop in Htok as [Hd Htok].
    destruct (isdigit_plain d Hd) as (_ & Hn & Hc & _).
    rewrite !string_app_cons. cbn [find_rest]. rewrite Hn, Hc, (IH Htok). reflexivity.
Qed.

Lemma tokens_from_end (fuel : nat) (tail : string) :
  (tail = EmptyString \/ exists r, tail = String NUL r) ->
  tokens_from fuel tail = [].
Proof.
  intros Htail. destruct fuel as [|fuel]; [reflexivity |].
  destruct Htail as [-> | (r & ->)]; reflexivity.
Qed.

Lemma tokens_from_join (toks : list string) :
  Forall (fun tok => tok <> EmptyString /\ string_forallb isdigit tok = true) toks ->
  forall tail fuel,
    (tail = EmptyString \/ exists r, tail = String NUL r) ->
    (String.length (join_commas toks +:+ tail) < fuel)%nat ->
    tokens_from fuel (join_commas toks +:+ tail) = toks.
Proof.
  induction toks as [|tok toks IH]; intros Hall tail fuel Htail Hfuel.
  - now apply tokens_from_end.
  - inversion Hall as [|? ? [Hne Hdig] Hall']; subst.
    destruct fuel as [|fuel]; [lia |].
    destruct tok as [|d tok]; [congruence |].
    pose proof Hdig as Hdig'. cbn [string_forallb] in Hdig'.
    apply andb_prop in Hdig' as [Hd _].
    cbn [join_commas] in *. destruct toks as [|tok2 toks].
    + cbn [tokens_from]. unfold strtok_s.
      rewrite string_app_cons, find_begin_digit by exact Hd.
      rewrite <- string_app_cons, find_rest_digits_end by assumption.
      f_equal. now apply tokens_from_end.
    + cbn [tokens_from]. unfold strtok_s.
      rewrite string_app_assoc, (string_app_cons "," _ tail).
      rewrite string_app_assoc, (string_app_cons "," _ tail) in Hfuel.
      rewrite string_app_cons, find_begin_digit by exact Hd.
      rewrite <- string_app_cons, find_rest_digits_comma by assumption.
      f_equal. apply IH; [assumption | assumption |].
      rewrite string_length_app in Hfuel. cbn [String.length] in Hfuel. lia.
Qed.

Lemma join_commas_chars (toks : list string) :
  Forall (fun tok => string_forallb isdigit tok = true) toks ->
  string_forallb devices_char_ok (join_commas toks) = true.
Proof.
  assert (forall a b, string_forallb devices_char_ok a = true ->
                      string_forallb devices_char_ok b = true ->
                      string_forallb devices_char_ok (a +:+ b) = true) as Happ.
  { induction a as [|x a IHa]; intros b Ha Hb; [exact Hb |].
    cbn [string_forallb] in Ha. apply andb_prop in Ha as [Hx Ha].
    rewrite string_app_cons. cbn [string_forallb]. now rewrite Hx, IHa. }
  assert (forall tok, string_forallb isdigit tok = true ->
                      string_forallb devices_char_ok tok = true) as Hdig.
  { intros tok. apply string_forallb_impl. intros c Hc.
    unfold devices_char_ok. now rewrite Hc. }
  induction toks as [|tok toks IH]; intros Hall; [reflexivity |].
  inversion Hall; subst. cbn [join_commas]. destruct toks as [|tok2 toks]; [auto |].
  apply Happ; [auto |]. cbn [string_forallb]. rewrite IH by assumption. reflexivity.
Qed.

Lemma strtoul_digits (tok : string) :
  tok <> EmptyString -> string_forallb isdigit tok = true ->
  digits_value 0 tok <= ULONG_MAX ->
  strtoul tok = (digits_value 0 tok, false).
Proof.
  intros Hne Hdig Hmax. destruct tok as [|d tok]; [congruence |].
  pose proof Hdig as Hdig'. cbn [string_forallb] in Hdig'.
  apply andb_prop in Hdig' as [Hd _].
  destruct (isdigit_plain d Hd) as (Hsp & _).
  unfold strtoul. cbn [skip_space]. rewrite Hsp, take_sign_digit by exact Hd.
  destruct (Z.ltb_spec ULONG_MAX (digits_value 0 (String d tok))); [lia | reflexivity].
Qed.

(** X17.  A list of decimal numbers written with commas between them is
    accepted as a devices argument when it fits the buffer, and
    [ParseDeviceIDs] run on the stored array returns [0] with exactly
    these numbers, in the order written and reduced modulo [2^32], as
    long as the list has room for them and none exceeds the range of
    [unsigned long]. *)
Theorem device_list_read_in_order (args : CmdArgs) (toks : list string)
    (idList : list Z) (idListSize : nat) :
  Forall (fun tok => tok <> EmptyString /\ string_forallb isdigit tok = true /\
                     digits_value 0 tok <= ULONG_MAX) toks ->
  (strlen (join_commas toks) < BUF_SIZE)%nat ->
  (length toks <= idListSize)%nat ->
  (idListSize <= length idList)%nat ->
  fst (DevicesCmdArgParser args (join_commas toks)) = true /\
  let r := ParseDeviceIDs idList idListSize
             (devices (snd (DevicesCmdArgParser args (join_commas toks)))) in
  fst (fst (fst r)) = 0 /\
  snd (fst r) = length toks /\
  take (length toks) (snd (fst (fst r))) =
  map (fun tok => digits_value 0 tok mod 2 ^ 32) toks.
Proof.
  intros Hall Hlen Hroom Hcap.
  assert (Forall (fun tok => tok <> EmptyString /\ string_forallb isdigit tok = true) toks)
    as Hnum by (eapply Forall_impl; [exact Hall | simpl; tauto]).
  assert (string_forallb devices_char_ok (join_commas toks) = true) as Hchars.
  { apply join_commas_chars. eapply Forall_impl; [exact Hall | simpl; tauto]. }
  assert (fst (DevicesCmdArgParser args (join_commas toks)) = true) as Hacc
    by (apply DevicesCmdArgParser_accepts; auto).
  split; [exact Hacc |].
  assert (exists tail, (tail = EmptyString \/ exists r, tail = String NUL r) /\
            devices (snd (DevicesCmdArgParser args (join_commas toks))) =
            join_commas toks +:+ tail) as (tail & Htail & ->).
  { unfold DevicesCmdArgParser, strcpy_s. rewrite Hchars.
    rewrite (proj2 (Nat.ltb_lt _ _) Hlen). simpl. unfold poke_cstr. eauto. }
  intros r. subst r. rewrite ParseDeviceIDs_spec.
  assert (tokens (join_commas toks +:+ tail) = toks) as ->.
  { unfold tokens. apply tokens_from_join; auto. }
  destruct (store_ids idListSize toks 0 idList) as [[ret idList'] n] eqn:E.
  apply store_ids_spec in E as (_ & Hiff & Hok). simpl in *.
  assert (ret = 0) as ->.
  { apply Hiff. split; [now right |].
    eapply Forall_impl; [exact Hall |]. simpl. intros tok (Hne & Hdig & Hmax).
    now rewrite strtoul_digits. }
  destruct (Hok eq_refl) as [-> Htake]. repeat split.
  rewrite Htake by lia. simpl.
  clear -Hall. induction Hall as [|tok toks (Hne & Hdig & Hmax) Hall IH]; [reflexivity |].
  simpl. rewrite IH. f_equal. unfold id_of. now rewrite strtoul_digits.
Qed.

(** *** What the preparation hands to the privileged steps *)

(** X23.  When [DoPrepare] returns [0] the configuration holds the
    rootfs of the arguments, which fits the buffer; as many device ids
    as the devices string has tokens, each the id of its token, in
    order; the namespace path and the cgroup path the helpers gave for
    the pid of the arguments; the descriptor [open] returned for the
    path of the process's own namespace, which is not negative; and the
    two mount lists. *)
Theorem DoPrepare_config (args : CmdArgs) (cfg : ParsedConfig) (w : World) :
  fst (fst (fst (DoPrepare args cfg w))) = 0 ->
  let cfg' := snd (fst (DoPrepare args cfg w)) in
  cfg_rootfs cfg' = rootfs args /\ (strlen (rootfs args) < BUF_SIZE)%nat /\
  devicesNr cfg' = length (tokens (devices args)) /\
  (devicesNr cfg' <= devicesNr cfg)%nat /\
  ((devicesNr cfg' <= length (cfg_devices cfg))%nat ->
   take (devicesNr cfg') (cfg_devices cfg') = map id_of (tokens (devices args))) /\
  GetNsPath env (pid args) "mnt" = Some (containerNsPath cfg') /\
  GetCgroupPath env (pid args) = Some (cgroupPath cfg') /\
  (exists p, GetSelfNsPath env "mnt" = Some p /\ originNsFd cfg' = open_rdonly env p) /\
  0 <= originNsFd cfg' /\
  files_set cfg' = true /\ dirs_set cfg' = true.
Proof.
  unfold DoPrepare, strcpy_s.
  destruct (Nat.ltb_spec (strlen (rootfs args)) BUF_SIZE) as [Hfit | _];
    [| unfold_M; simpl; lia].
  cbn [with_rootfs cfg_devices devicesNr].
  pose proof (ParseDeviceIDs_spec (cfg_devices cfg) (devicesNr cfg) (devices args)) as Hspec.
  remember (tokens (devices args)) as toks eqn:Htoks. clear Htoks.
  destruct (ParseDeviceIDs _ _ _) as [[[pret idList] n] devs]. cbn [fst] in Hspec.
  symmetry in Hspec. apply store_ids_spec in Hspec as (Hret & Hiff & Hok).
  destruct (Z.ltb_spec pret 0) as [Hneg | Hpos]; [unfold_M; simpl; lia |].
  destruct (GetNsPath env _ _) as [nsPath|]; [| unfold_M; simpl; lia].
  destruct (GetCgroupPath env _) as [cg|]; [| unfold_M; simpl; lia].
  destruct (GetSelfNsPath env _) as [originNsPath|]; [| unfold_M; simpl; lia].
  unfold_M. unfold sys_open. cbn [fst snd].
  destruct (Z.ltb_spec (open_rdonly env originNsPath) 0) as [Hfd | Hfd];
    cbn [fst snd]; [lia |].
  intros _. cbn.
  assert (pret = 0) as -> by (destruct Hret; lia).
  destruct (Hok eq_refl) as [-> Htake]. cbn in Htake |- *.
  destruct (proj1 Hiff eq_refl) as [[Hnil | Hle] _].
  - rewrite Hnil in *. cbn in *. repeat split; eauto; lia.
  - cbn in Hle. repeat split; eauto.
Qed.

(** *** The slot of a mount value *)

Lemma mount_append_slot (ml : MountList) (arg : string) :
  (count ml < MAX_MOUNT_NR)%nat -> (count ml < length (paths ml))%nat ->
  (strlen arg < PATH_MAX)%nat ->
  fst (mount_append ml arg) = CheckFileLegality arg (strlen arg) && CheckWhiteList arg /\
  count (snd (mount_append ml arg)) = S (count ml) /\
  paths (snd (mount_append ml arg)) !! count ml = Some arg /\
  length (paths (snd (mount_append ml arg))) = length (paths ml).
Proof.
  intros Hroom Hslot Hfit. unfold mount_append, strcpy_s.
  destruct (Nat.eqb_spec (count ml) MAX_MOUNT_NR) as [Heq | _]; [lia |].
  rewrite (proj2 (Nat.ltb_lt _ _) Hfit).
  destruct (CheckFileLegality arg (strlen arg)); cbn [negb fst snd count paths andb];
    (split; [reflexivity |]); (split; [lia |]);
    (split; [now apply list_lookup_insert_eq | apply length_insert]).
Qed.

(** X24.  A mount value is recorded before it is checked: when the list
    of its kind has a free slot and the value fits [PATH_MAX], the
    parser takes the next slot for it and advances the counter whether
    or not the value then passes the legality check and the white list,
    which alone decide the verdict; the list of the other kind is not
    touched. *)
Theorem mount_value_recorded_before_checks (args : CmdArgs) (arg : string) :
  (strlen arg < PATH_MAX)%nat ->
  ((count (files args) < MAX_MOUNT_NR)%nat ->
   (count (files args) < length (paths (files args)))%nat ->
   let r := MountFileCmdArgParser args arg in
   fst r = CheckFileLegality arg (strlen arg) && CheckWhiteList arg /\
   count (files (snd r)) = S (count (files args)) /\
   paths (files (snd r)) !! count (files args) = Some arg /\
   dirs (snd r) = dirs args) /\
  ((count (dirs args) < MAX_MOUNT_NR)%nat ->
   (count (dirs args) < length (paths (dirs args)))%nat ->
   let r := MountDirCmdArgParser args arg in
   fst r = CheckFileLegality arg (strlen arg) && CheckWhiteList arg /\
   count (dirs (snd r)) = S (count (dirs args)) /\
   paths (dirs (snd r)) !! count (dirs args) = Some arg /\
   files (snd r) = files args).
Proof.
  intros Hfit. split; intros Hroom Hslot r; subst r.
  - rewrite MountFileCmdArgParser_append.
    destruct (mount_append_slot (files args) arg Hroom Hslot Hfit) as (H1 & H2 & H3 & _).
    destruct args; cbn [fst snd files dirs set_files] in *. auto.
  - rewrite MountDirCmdArgParser_append.
    destruct (mount_append_slot (dirs args) arg Hroom Hslot Hfit) as (H1 & H2 & H3 & _).
    destruct args; cbn [fst snd files dirs set_dirs] in *. auto.
Qed.

End Cli.

(** ** The DCMI wrapper interface *)

Import Dcmi.

Lemma CALL_FUNC_null (actuals : list Z) :
  CALL_FUNC None actuals = Returned FUNCTION_NOT_FOUND.
Proof. reflexivity. Qed.




(** The pointers after [dcmiInit_dl] in a fresh process. *)
Lemma dcmiInit_dl_pointers (ld : Loader) (w : wrapper) :
  pointer_of w (snd (fst (dcmiInit_dl ld state0))) =
  match dlopen ld "libdcmi.so" with
  | None => None
  | Some h => if fst (dlinfo ld h) =? 0 then dlsym ld h (symbol w) else None
  end.
Proof.
  unfold dcmiInit_dl. destruct (dlopen ld "libdcmi.so") as [h|]; [| now destruct w].
  destruct (dlinfo ld h) as [ret l_name]; simpl.
  destruct (ret =? 0); simpl; now destruct w.
Qed.





(** After a partial binding the wrapper of the missing symbol reports
    it, the others reach the vendor functions. *)
Example dcmi_partial_binding :
  let st := snd (fst (dcmiInit_dl ld_partial state0)) in
  fst (fst (dcmiInit_dl ld_partial state0)) = SUCCESS /\
  dcmi_create_vdevice st 0 0 0 0 = Returned FUNCTION_NOT_FOUND /\
  dcmi_init st = Returned 0.
Proof. repeat split. Qed.

(** *** Binding, rebinding and shutting down *)

Lemma string_take_prefix (n : nat) (s : string) :
  (String.length (string_take n s) <= n)%nat /\
  (exists rest, s = string_take n s +:+ rest) /\
  ((String.length s <= n)%nat -> string_take n s = s).
Proof.
  revert s. induction n as [|n IH]; intros [|c s]; cbn [string_take String.length].
  - repeat split; [lia | now exists EmptyString].
  - repeat split; [lia | now exists (String c s) | lia].
  - repeat split; [lia | now exists EmptyString].
  - destruct (IH s) as (Hlen & (rest & Hrest) & Hall). repeat split.
    + lia.
    + exists rest. rewrite string_app_cons. now rewrite <- Hrest.
    + intros Hle. rewrite Hall by lia. reflexivity.
Qed.

Lemma call_forwards (w : wrapper) (st : State) (a b c d : Z) :
  call w st a b c d =
  match pointer_of w st with
  | Some f => Returned (f (actuals w a b c d))
  | None => Returned FUNCTION_NOT_FOUND
  end.
Proof.
  destruct w; simpl;
    unfold dcmi_init, dcmi_get_card_num_list, dcmi_get_device_num_in_card,
      dcmi_get_device_logic_id, dcmi_create_vdevice, dcmi_set_destroy_vdevice,
      dcmi_get_device_logicid_from_phyid, CALL_FUNC;
    match goal with |- context [is_null ?f] => destruct f end; reflexivity.
Qed.

(** X19.  Whatever an earlier load had bound, after [dcmiInit_dl] has
    returned [SUCCESS] every wrapper goes by the handle just opened: it
    calls the function [dlsym] gave for its own symbol, with its own
    arguments in the order of its parameters, and returns what that
    function returns; a wrapper whose symbol did not resolve returns
    [FUNCTION_NOT_FOUND], also if it was bound before. *)
Theorem bound_wrapper_forwards (ld : Loader) (st : State) :
  fst (fst (dcmiInit_dl ld st)) = SUCCESS ->
  exists h,
    dlopen ld "libdcmi.so" = Some h /\ fst (dlinfo ld h) = 0 /\
    dcmiHandle (snd (fst (dcmiInit_dl ld st))) = Some h /\
    forall w a b c d,
      call w (snd (fst (dcmiInit_dl ld st))) a b c d =
      match dlsym ld h (symbol w) with
      | Some f => Returned (f (actuals w a b c d))
      | None => Returned FUNCTION_NOT_FOUND
      end.
Proof.
  unfold dcmiInit_dl. destruct (dlopen ld "libdcmi.so") as [h|]; [| discriminate].
  destruct (dlinfo ld h) as [ret l_name] eqn:E.
  destruct (Z.eqb_spec ret 0) as [-> | Hne]; simpl.
  - intros _. exists h. rewrite E. do 3 (split; [reflexivity |]). intros w a b c d.
    rewrite call_forwards. now destruct w.
  - discriminate.
Qed.

(** X20.  A failed [dcmiInit_dl] returns [SO_NOT_FOUND] or
    [SO_NOT_CORRECT], stores the result of [dlopen] in the handle, writes
    no byte of [dl_path] and no function pointer: every wrapper behaves
    as it did before the call, so that after an earlier successful load
    the wrappers still call the functions of that load. *)
Theorem failed_load_keeps_pointers (ld : Loader) (st : State) :
  fst (fst (dcmiInit_dl ld st)) <> SUCCESS ->
  (fst (fst (dcmiInit_dl ld st)) = SO_NOT_FOUND \/
   fst (fst (dcmiInit_dl ld st)) = SO_NOT_CORRECT) /\
  dcmiHandle (snd (fst (dcmiInit_dl ld st))) = dlopen ld "libdcmi.so" /\
  snd (dcmiInit_dl ld st) = EmptyString /\
  forall w a b c d,
    call w (snd (fst (dcmiInit_dl ld st))) a b c d = call w st a b c d.
Proof.
  unfold dcmiInit_dl. destruct (dlopen ld "libdcmi.so") as [h|].
  - destruct (dlinfo ld h) as [ret l_name]. destruct (ret =? 0); simpl.
    + intros H. now contradict H.
    + intros _. split; [now right |]. do 2 (split; [reflexivity |]).
      intros w a b c d. rewrite !call_forwards. now destruct w.
  - simpl. intros _. split; [now left |]. do 2 (split; [reflexivity |]).
    intros w a b c d. rewrite !call_forwards. now destruct w.
Qed.

(** X21.  [dcmiShutDown] after [dcmiInit_dl], whatever the latter
    returned: when [dlopen] gave no handle it returns [SUCCESS] without
    calling [dlclose]; otherwise it calls [dlclose] on the handle
    [dlopen] gave, also when [dcmiInit_dl] had returned
    [SO_NOT_CORRECT], and returns [SUCCESS] when [dlclose] returns [0]
    and [ERROR_UNKNOWN] when it does not.  It returns none of the other
    codes. *)
Theorem shutdown_after_init (ld : Loader) (dlclose : Z -> Z) (st : State) :
  let st' := snd (fst (dcmiInit_dl ld st)) in
  dcmiShutDown dlclose st' =
  match dlopen ld "libdcmi.so" with
  | None => (SUCCESS, None)
  | Some h => (if dlclose h =? 0 then SUCCESS else ERROR_UNKNOWN, Some h)
  end /\
  (fst (dcmiShutDown dlclose st') = SUCCESS \/
   fst (dcmiShutDown dlclose st') = ERROR_UNKNOWN).
Proof.
  unfold dcmiInit_dl, dcmiShutDown.
  destruct (dlopen ld "libdcmi.so") as [h|]; [| simpl; auto].
  destruct (dlinfo ld h) as [ret l_name].
  destruct (ret =? 0); simpl; destruct (dlclose h =? 0); simpl; auto.
Qed.

(** X22.  [dcmiInit_dl] never writes more than [PATH_MAX] bytes to
    [dl_path]: what it writes on success is the name of the link map up
    to its first [PATH_MAX] bytes, the whole name when it is no longer
    than that. *)
Theorem dl_path_bounded (ld : Loader) (st : State) :
  (String.length (snd (dcmiInit_dl ld st)) <= PATH_MAX)%nat /\
  (forall h, dlopen ld "libdcmi.so" = Some h -> fst (dlinfo ld h) = 0 ->
     (exists rest, snd (dlinfo ld h) = snd (dcmiInit_dl ld st) +:+ rest) /\
     ((String.length (snd (dlinfo ld h)) <= PATH_MAX)%nat ->
      snd (dcmiInit_dl ld st) = snd (dlinfo ld h))).
Proof.
  unfold dcmiInit_dl. destruct (dlopen ld "libdcmi.so") as [h|].
  - destruct (dlinfo ld h) as [ret l_name] eqn:E.
    destruct (string_take_prefix PATH_MAX l_name) as (Hlen & Hpre & Hall).
    destruct (Z.eqb_spec ret 0) as [-> | Hne]; cbn [negb snd fst].
    + split; [exact Hlen |]. intros h' Hh' _. injection Hh' as <-. rewrite E.
      cbn [snd]. split; [exact Hpre | exact Hall].
    + split; [cbn [String.length]; lia |]. intros h' Hh'. injection Hh' as <-.
      rewrite E. cbn [fst]. intros Hz. contradiction.
  - split; [cbn [snd String.length]; lia | discriminate].
Qed.

(** ** The command line tool on the sample inputs *)

Local Abbreviation parse_sample devs :=
  (parse_opts sample_BUF_SIZE sample_MAX_MOUNT_NR sample_WHITE_LIST_NUM
              IsValidChar_spec env_ok (args_zero sample_MAX_MOUNT_NR) (sample_opts devs)).

Local Abbreviation parse_pid_sample p :=
  (parse_opts sample_BUF_SIZE sample_MAX_MOUNT_NR sample_WHITE_LIST_NUM
              IsValidChar_spec env_ok (args_zero sample_MAX_MOUNT_NR) (sample_pid_opts p)).

Local Abbreviation Process_sample e devs :=
  (Process sample_BUF_SIZE sample_MAX_MOUNT_NR sample_MAX_DEVICE_NR sample_WHITE_LIST_NUM
           IsValidChar_spec e (sample_opts devs) world0).

Local Abbreviation SetupContainer_sample e devs :=
  (SetupContainer sample_BUF_SIZE sample_MAX_DEVICE_NR e (snd (parse_sample devs)) world0).

(** The two examples of the specification for the devices argument. *)
Example devices_1_2_a_rejected :
  Process_sample env_ok "1,2,a" = (-1, world0).
Proof. vm_compute. reflexivity. Qed.

Example devices_1_2_3_accepted :
  fst (parse_sample "1,2,3") = 0 /\
  IsCmdArgsValid (snd (parse_sample "1,2,3")) = true /\
  let '(ret, idList, n, _) :=
    ParseDeviceIDs (replicate sample_MAX_DEVICE_NR 0) sample_MAX_DEVICE_NR
                   (devices (snd (parse_sample "1,2,3"))) in
  ret = 0 /\ take n idList = [1; 2; 3].
Proof. vm_compute. repeat split. Qed.

(** The complete run on a host where every step succeeds: the process
    ends in the namespace it started in and the descriptor is closed. *)
Example successful_run :
  Process_sample env_ok "0,1" =
  (0, mkWorld CallerNs []
        [ EvOpen "/proc/self/ns/mnt" 3;
          EvEnterNsByPath "/proc/1234/ns/mnt" 0;
          EvDoMounting 0; EvSetupCgroup 0;
          EvEnterNsByFd 3 0; EvClose 3 ]).
Proof. vm_compute. reflexivity. Qed.

(** C1 (counterexample).  On a host where the mounts succeed and the
    cgroup configuration fails, the invocation does not end in the
    namespace it started in: the claim as stated does not hold. *)
Lemma cgroup_failure_leaves_container_ns :
  ~ restored_on_cgroup_failure sample_BUF_SIZE sample_MAX_DEVICE_NR env_cgroup_fails
      (snd (parse_sample "0,1")) world0.
Proof.
  intros H.
  assert (cgroup_fails_after_mounts sample_BUF_SIZE sample_MAX_DEVICE_NR env_cgroup_fails
            (snd (parse_sample "0,1")) world0) as Hpath.
  { unfold cgroup_fails_after_mounts.
    do 3 eexists. split; [vm_compute; reflexivity |].
    vm_compute. repeat split; discriminate. }
  destruct (H Hpath) as (_ & Hns & _).
  vm_compute in Hns. discriminate.
Qed.

Lemma cgroup_failure_closes_without_restore_witness :
  fst (fst (SetupContainer_sample env_cgroup_fails "0,1")) = -1 /\
  fds (snd (SetupContainer_sample env_cgroup_fails "0,1")) = [] /\
  mnt_ns (snd (SetupContainer_sample env_cgroup_fails "0,1")) = TargetNs "/proc/1234/ns/mnt".
Proof.
  pose proof (fun a c w1 H => cgroup_failure_closes_without_restore
                sample_BUF_SIZE sample_MAX_DEVICE_NR env_cgroup_fails
                (snd (parse_sample "0,1")) world0 a c w1 H) as T.
  edestruct T as (H1 & H2 & H3 & _).
  - vm_compute. reflexivity.
  - vm_compute. discriminate.
  - vm_compute. discriminate.
  - vm_compute. reflexivity.
  - split; [exact H1 | split; [exact H2 | exact H3]].
Defined.

(** C2.  The invocation with devices "1,2,3" passes validation, and
    [DoPrepare], the first step of the setup sequence, changes the
    devices string of the raw invocation record: [strtok_s] overwrites
    the separators in place, and the record is left holding "1".  The
    other fields are as they were. *)
Theorem devices_string_modified_by_prepare :
  fst (parse_sample "1,2,3") = 0 /\
  IsCmdArgsValid (snd (parse_sample "1,2,3")) = true /\
  cstr (devices (snd (parse_sample "1,2,3"))) = "1,2,3" /\
  let args' := snd (fst (SetupContainer_sample env_ok "1,2,3")) in
  fst (fst (SetupContainer_sample env_ok "1,2,3")) = 0 /\
  cstr (devices args') = "1" /\
  devices args' <> devices (snd (parse_sample "1,2,3")) /\
  set_devices args' (devices (snd (parse_sample "1,2,3"))) = snd (parse_sample "1,2,3").
Proof. vm_compute. repeat split. discriminate. Qed.

(** C4.  The pid arguments "4294967297" and "-4294967295" are within
    the range of [long], so [strtol] reports no error for them; the
    conversion to the [int] field [pid] stores 1, their value modulo
    [2^32], and it is the stored pid that is held against 0 and
    pid_max.  On a host whose pid_max reads 4194304 the parser accepts
    both arguments, the invocation passes validation and the setup
    sequence runs: a pid greater than pid_max and a negative pid are not
    rejected. *)
Theorem pid_beyond_int_not_rejected :
  read_pid_max env_ok = Some 4194304 /\
  strtol "4294967297" = (4294967297, false) /\
  4194304 <= 4294967297 /\
  fst (PidCmdArgParser env_ok (args_zero sample_MAX_MOUNT_NR) "4294967297") = true /\
  fst (parse_pid_sample "4294967297") = 0 /\
  pid (snd (parse_pid_sample "4294967297")) = 1 /\
  IsCmdArgsValid (snd (parse_pid_sample "4294967297")) = true /\
  fst (Process sample_BUF_SIZE sample_MAX_MOUNT_NR sample_MAX_DEVICE_NR sample_WHITE_LIST_NUM
               IsValidChar_spec env_ok (sample_pid_opts "4294967297") world0) = 0 /\
  strtol "-4294967295" = (-4294967295, false) /\
  -4294967295 < 0 /\
  fst (PidCmdArgParser env_ok (args_zero sample_MAX_MOUNT_NR) "-4294967295") = true /\
  fst (parse_pid_sample "-4294967295") = 0 /\
  pid (snd (parse_pid_sample "-4294967295")) = 1 /\
  IsCmdArgsValid (snd (parse_pid_sample "-4294967295")) = true /\
  fst (Process sample_BUF_SIZE sample_MAX_MOUNT_NR sample_MAX_DEVICE_NR sample_WHITE_LIST_NUM
               IsValidChar_spec env_ok (sample_pid_opts "-4294967295") world0) = 0.
Proof. repeat split; try (vm_compute; reflexivity); vm_compute; discriminate. Qed.

(** C5.  The devices string "99999999999999" holds digits only and is
    accepted; its single token is within the range of [unsigned long],
    so [strtoul] reports no error, and the conversion to the
    [unsigned int] element of the id list stores 276447231, the value
    modulo [2^32].  A token that overflows the id type is not rejected. *)
Theorem device_id_overflow_not_rejected :
  fst (parse_sample "99999999999999") = 0 /\
  IsCmdArgsValid (snd (parse_sample "99999999999999")) = true /\
  strtoul "99999999999999" = (99999999999999, false) /\
  UINT_MAX < 99999999999999 /\
  let '(ret, idList, n, _) :=
    ParseDeviceIDs (replicate sample_MAX_DEVICE_NR 0) sample_MAX_DEVICE_NR
                   (devices (snd (parse_sample "99999999999999"))) in
  ret = 0 /\ take n idList = [276447231].
Proof. vm_compute. repeat split. Qed.

Example tokens_of_devices :
  tokens "1,2,3" = ["1"; "2"; "3"] /\ tokens ",,7,,8," = ["7"; "8"] /\ tokens "," = [].
Proof. repeat split. Qed.

(** More tokens than the id list has room for are rejected. *)
Example devices_beyond_capacity_rejected :
  fst (fst (fst (ParseDeviceIDs (replicate 2 0) 2 "1,2,3"))) = -1.
Proof. reflexivity. Qed.

(** A token beyond the range of [unsigned long] is rejected. *)
Example device_id_beyond_ulong_rejected :
  strtoul "99999999999999999999" = (ULONG_MAX, true) /\
  Process_sample env_ok "99999999999999999999" = (-1, world0).
Proof. vm_compute. repeat split. Qed.

(** C7.  The invocation with the device id "99999999999999" is not
    rejected before the privileged steps: validation and preparation
    succeed (the id is stored as 276447231), [EnterNsByPath] is called
    and the whole sequence runs. *)
Theorem overflowing_device_id_reaches_namespace_switch :
  let '(ret, w) := Process_sample env_ok "99999999999999" in
  ret = 0 /\
  existsb is_ns_switch (trace w) = true /\
  trace w = [ EvOpen "/proc/self/ns/mnt" 3;
              EvEnterNsByPath "/proc/1234/ns/mnt" 0;
              EvDoMounting 0; EvSetupCgroup 0;
              EvEnterNsByFd 3 0; EvClose 3 ].
Proof. vm_compute. repeat split. Qed.

(** C10.  The devices string "," is not empty and holds separators
    only; the invocation passes validation, [ParseDeviceIDs] yields an
    empty id list, and the setup sequence runs: the container's
    namespace is entered with no device to inject. *)
Theorem separator_only_devices_accepted :
  exists devs : string,
    devs <> EmptyString /\
    string_forallb (fun c => Ascii.eqb c ",") devs = true /\
    fst (parse_sample devs) = 0 /\
    IsCmdArgsValid (snd (parse_sample devs)) = true /\
    (forall idList idListSize,
       ParseDeviceIDs idList idListSize (devices (snd (parse_sample devs))) =
       (0, idList, 0%nat, devices (snd (parse_sample devs)))) /\
    devicesNr (snd (fst (DoPrepare sample_BUF_SIZE env_ok (snd (parse_sample devs))
                           (InitParsedConfig sample_MAX_DEVICE_NR) world0))) = 0%nat /\
    Process_sample env_ok devs =
    (0, mkWorld CallerNs []
          [ EvOpen "/proc/self/ns/mnt" 3;
            EvEnterNsByPath "/proc/1234/ns/mnt" 0;
            EvDoMounting 0; EvSetupCgroup 0;
            EvEnterNsByFd 3 0; EvClose 3 ]).
Proof.
  exists ",". split; [discriminate |]. split; [reflexivity |].
  split; [vm_compute; reflexivity |]. split; [vm_compute; reflexivity |].
  split.
  - intros idList idListSize.
    change (devices (snd (parse_sample ","))) with ("," +:+ String NUL EmptyString).
    apply ParseDeviceIDs_separator.
  - split; vm_compute; reflexivity.
Qed.

(** *** Instances of the general statements *)

Lemma path_legality_canonical_witness :
  CheckFileLegality IsValidChar_spec env_enoent "/usr/local/dcmi"
                    (strlen "/usr/local/dcmi") = true.
Proof.
  apply (proj1 (proj2 (proj2 (path_legality_canonical IsValidChar_spec env_enoent
                                "/usr/local/dcmi"))) "/usr/local/dcmi").
  - reflexivity.
  - vm_compute. repeat split; lia.
Defined.

Example PidCmdArgParser_verdict_1234 :
  fst (PidCmdArgParser env_ok (args_zero 0) "1234") = true.
Proof.
  pose proof (PidCmdArgParser_verdict env_ok (args_zero 0) "1234") as H.
  cbv zeta in H. destruct H as (_ & _ & _ & _ & _ & _ & H).
  apply (H 4194304).
  - vm_compute. reflexivity.
  - vm_compute. split; reflexivity.
  - reflexivity.
Qed.

Lemma whitelist_exact_match_witness :
  CheckWhiteList sample_WHITE_LIST_NUM "/usr/local/Ascend/driver/lib64" = true.
Proof.
  apply (whitelist_exact_match sample_MAX_MOUNT_NR sample_WHITE_LIST_NUM
           IsValidChar_spec env_ok).
  unfold sample_WHITE_LIST_NUM. lia.
Defined.

Lemma mount_list_bounded_fail_closed_witness :
  Process sample_BUF_SIZE 1 sample_MAX_DEVICE_NR sample_WHITE_LIST_NUM
          IsValidChar_spec env_ok
          ([("f"%char, Some "/usr/local/dcmi")]
             ++ ("f"%char, Some "/usr/local/bin/npu-smi") :: sample_opts "0")
          world0
  = (-1, world0).
Proof.
  pose proof (mount_list_bounded_fail_closed sample_BUF_SIZE 1 sample_MAX_DEVICE_NR
                sample_WHITE_LIST_NUM IsValidChar_spec env_ok) as (_ & _ & H).
  eapply H.
  - vm_compute. reflexivity.
  - reflexivity.
Defined.

(** *** Instances of the further properties *)

Local Abbreviation Process_on opts :=
  (Process sample_BUF_SIZE sample_MAX_MOUNT_NR sample_MAX_DEVICE_NR sample_WHITE_LIST_NUM
           IsValidChar_spec env_ok opts world0).

Lemma options_enumerated_witness :
  Process_on ([] ++ ("o"%char, Some "PRIVILEGED") :: sample_opts "0")%list = (-1, world0).
Proof.
  apply (proj2 (options_enumerated sample_BUF_SIZE sample_MAX_MOUNT_NR sample_MAX_DEVICE_NR
                  sample_WHITE_LIST_NUM IsValidChar_spec env_ok (args_zero 0) "PRIVILEGED"));
    discriminate.
Defined.

Lemma unrecognized_option_rejected_witness :
  Process_on (sample_opts "0" ++ [("x"%char, Some "1")])%list = (-1, world0).
Proof.
  apply (proj2 (unrecognized_option_rejected sample_BUF_SIZE sample_MAX_MOUNT_NR
                  sample_MAX_DEVICE_NR sample_WHITE_LIST_NUM IsValidChar_spec env_ok
                  "x" (Some "1") ltac:(right; repeat split; discriminate))).
Defined.

Lemma required_arguments_witness :
  Process_on [("d"%char, Some "0"); ("p"%char, Some "1234")] = (-1, world0).
Proof.
  apply required_arguments. right; left. reflexivity.
Defined.

Lemma overlong_argument_rejected_witness :
  Process 4 sample_MAX_MOUNT_NR sample_MAX_DEVICE_NR sample_WHITE_LIST_NUM
          IsValidChar_spec env_ok
          ([] ++ ("d"%char, Some "0,1,2") :: [("p"%char, Some "1234"); ("r"%char, Some "/r")])%list
          world0
  = (-1, world0).
Proof.
  apply (proj2 (overlong_argument_rejected 4 sample_MAX_MOUNT_NR sample_MAX_DEVICE_NR
                  sample_WHITE_LIST_NUM IsValidChar_spec env_ok "d" "0,1,2"
                  ltac:(left; split; [left; reflexivity | simpl; lia]))).
Defined.

Lemma accepted_argument_stored_whole_witness :
  cstr (devices (snd (ParseOneCmdArg sample_BUF_SIZE sample_MAX_MOUNT_NR sample_WHITE_LIST_NUM
                        IsValidChar_spec env_ok
                        (snd (parse_sample "10,11,12")) "d" (Some "7")))) = "7".
Proof.
  apply (proj1 (accepted_argument_stored_whole sample_BUF_SIZE sample_MAX_MOUNT_NR
                  sample_WHITE_LIST_NUM IsValidChar_spec env_ok
                  (snd (parse_sample "10,11,12")) "7")).
  vm_compute. reflexivity.
Defined.

Lemma mount_lists_in_order_witness :
  let opts := (("f"%char, Some "/usr/local/dcmi") :: sample_opts "0"
                 ++ [("i"%char, Some "/usr/local/Ascend/driver/lib64");
                     ("f"%char, Some "/usr/local/bin/npu-smi")])%list in
  let args := snd (parse_opts sample_BUF_SIZE sample_MAX_MOUNT_NR sample_WHITE_LIST_NUM
                              IsValidChar_spec env_ok (args_zero sample_MAX_MOUNT_NR) opts) in
  take (count (files args)) (paths (files args)) =
  ["/usr/local/dcmi"; "/usr/local/bin/npu-smi"].
Proof.
  intros opts args.
  apply (mount_lists_in_order sample_BUF_SIZE sample_MAX_MOUNT_NR sample_WHITE_LIST_NUM
           IsValidChar_spec env_ok opts args).
  vm_compute. reflexivity.
Defined.

Lemma ParseDeviceIDs_verdict_witness :
  fst (fst (fst (ParseDeviceIDs (replicate 2 0) 2 "1,2,3"))) = -1.
Proof.
  apply (proj1 (proj2 (ParseDeviceIDs_verdict (replicate 2 0) 2 "1,2,3"))).
  left. vm_compute. lia.
Defined.

Lemma ParseDeviceIDs_bounds_witness :
  (snd (fst (ParseDeviceIDs (replicate 4 0%Z) 4 "1,2")) <= 4)%nat.
Proof.
  apply (proj1 (proj2 (proj2 (ParseDeviceIDs_bounds (replicate 4 0) 4 "1,2")))).
  reflexivity.
Defined.

Lemma success_means_restored_witness :
  mnt_ns (snd (Process_on (sample_opts "0,1"))) = mnt_ns world0.
Proof.
  apply (proj2 (success_means_restored sample_BUF_SIZE sample_MAX_MOUNT_NR sample_MAX_DEVICE_NR
                  sample_WHITE_LIST_NUM IsValidChar_spec env_ok (sample_opts "0,1") world0)).
  vm_compute. reflexivity.
Defined.

Lemma steps_in_order_witness :
  exists p e, 0 <= e /\ EvEnterNsByPath p e ∈ trace (snd (Process_on (sample_opts "0,1"))).
Proof.
  destruct (steps_in_order sample_BUF_SIZE sample_MAX_MOUNT_NR sample_MAX_DEVICE_NR
              sample_WHITE_LIST_NUM IsValidChar_spec env_ok (sample_opts "0,1") world0)
    as (evs & Htr & Hmount & _).
  change (trace world0 ++ evs)%list with evs in Htr. rewrite Htr.
  apply (Hmount 0). rewrite <- Htr. vm_compute.
  apply list_elem_of_further, list_elem_of_further, list_elem_of_here.
Defined.

Lemma failure_after_entry_stays_in_container_witness :
  mnt_ns (snd (Process sample_BUF_SIZE sample_MAX_MOUNT_NR sample_MAX_DEVICE_NR
                       sample_WHITE_LIST_NUM IsValidChar_spec env_cgroup_fails
                       (sample_opts "0,1") world0))
  = TargetNs "/proc/1234/ns/mnt".
Proof.
  apply (failure_after_entry_stays_in_container sample_BUF_SIZE sample_MAX_MOUNT_NR
           sample_MAX_DEVICE_NR sample_WHITE_LIST_NUM IsValidChar_spec env_cgroup_fails
           (sample_opts "0,1") world0
           [ EvOpen "/proc/self/ns/mnt" 3; EvEnterNsByPath "/proc/1234/ns/mnt" 0;
             EvDoMounting 0; EvSetupCgroup (-1); EvClose 3 ]
           "/proc/1234/ns/mnt" 0).
  - vm_compute. reflexivity.
  - vm_compute. reflexivity.
  - apply list_elem_of_further, list_elem_of_here.
  - lia.
Defined.

Lemma pid_text_around_number_ignored_witness :
  PidCmdArgParser env_ok (args_zero 0) (" " +:+ "1234" +:+ "abc") =
  PidCmdArgParser env_ok (args_zero 0) "1234".
Proof.
  apply pid_text_around_number_ignored.
  - reflexivity.
  - reflexivity.
  - discriminate.
  - right. exists "a"%char, "bc". split; reflexivity.
Defined.

Lemma illegal_path_fails_invocation_witness :
  CheckFileLegality IsValidChar_spec env_ok "/usr/local/dcmi;reboot"
                    (strlen "/usr/local/dcmi;reboot") = false.
Proof.
  apply (proj1 (illegal_path_fails_invocation sample_BUF_SIZE sample_MAX_MOUNT_NR
                  sample_MAX_DEVICE_NR sample_WHITE_LIST_NUM IsValidChar_spec env_ok
                  "f" "/usr/local/dcmi;reboot")).
  right; right. vm_compute. reflexivity.
Defined.

Lemma whitelist_applies_to_mounts_only_witness :
  Process_on ([] ++ ("f"%char, Some "/etc/passwd") :: sample_opts "0")%list = (-1, world0).
Proof.
  apply (proj1 (whitelist_applies_to_mounts_only sample_BUF_SIZE sample_MAX_MOUNT_NR
                  sample_MAX_DEVICE_NR sample_WHITE_LIST_NUM IsValidChar_spec env_ok
                  (args_zero 0) "f" "/etc/passwd")).
  - intros H. apply list_elem_of_In in H. vm_compute in H. intuition discriminate.
  - left. reflexivity.
Defined.

Lemma device_list_read_in_order_witness :
  take 3 (snd (fst (fst (ParseDeviceIDs (replicate 4 0) 4
            (devices (snd (DevicesCmdArgParser sample_BUF_SIZE (args_zero 0) "7,4294967298,0")))))))
  = [7; 2; 0].
Proof.
  apply (device_list_read_in_order sample_BUF_SIZE (args_zero 0) ["7"; "4294967298"; "0"]
           (replicate 4 0) 4).
  - repeat (constructor; [split; [discriminate | split; [reflexivity | vm_compute; discriminate]] |]).
    constructor.
  - vm_compute. lia.
  - simpl. lia.
  - simpl. lia.
Defined.

Lemma Process_failure_before_switch_witness :
  fst (Process_on (sample_opts "1,2,a")) = -1 /\
  mnt_ns (snd (Process_on (sample_opts "1,2,a"))) = mnt_ns world0 /\
  no_ns_switch world0 (snd (Process_on (sample_opts "1,2,a"))).
Proof.
  apply Process_failure_before_switch. left. vm_compute. reflexivity.
Defined.

Lemma bound_wrapper_forwards_witness :
  exists h,
    dlopen ld_partial "libdcmi.so" = Some h /\ fst (dlinfo ld_partial h) = 0 /\
    dcmiHandle (snd (fst (dcmiInit_dl ld_partial state0))) = Some h /\
    forall w a b c d,
      call w (snd (fst (dcmiInit_dl ld_partial state0))) a b c d =
      match dlsym ld_partial h (symbol w) with
      | Some f => Returned (f (actuals w a b c d))
      | None => Returned FUNCTION_NOT_FOUND
      end.
Proof.
  apply (bound_wrapper_forwards ld_partial state0). reflexivity.
Defined.

Lemma failed_load_keeps_pointers_witness :
  let st := snd (fst (dcmiInit_dl ld_partial state0)) in
  call W_init (snd (fst (dcmiInit_dl ld_absent st))) 0 0 0 0 = call W_init st 0 0 0 0.
Proof.
  intros st.
  apply (failed_load_keeps_pointers ld_absent st ltac:(vm_compute; discriminate)).
Defined.

Lemma dl_path_bounded_witness :
  snd (dcmiInit_dl ld_partial state0) = snd (dlinfo ld_partial 1).
Proof.
  apply (proj2 (dl_path_bounded ld_partial state0) 1).
  - reflexivity.
  - reflexivity.
  - apply Nat.leb_le. vm_compute. reflexivity.
Defined.

Lemma DoPrepare_config_witness :
  let args := snd (parse_sample "0,1") in
  let cfg' := snd (fst (DoPrepare sample_BUF_SIZE env_ok args
                                  (InitParsedConfig sample_MAX_DEVICE_NR) world0)) in
  cfg_rootfs cfg' = rootfs args /\ (strlen (rootfs args) < sample_BUF_SIZE)%nat /\
  devicesNr cfg' = length (tokens (devices args)).
Proof.
  intros args cfg'.
  pose proof (DoPrepare_config sample_BUF_SIZE env_ok args
                (InitParsedConfig sample_MAX_DEVICE_NR) world0
                ltac:(vm_compute; reflexivity)) as (H1 & H2 & H3 & _).
  split; [exact H1 | split; [exact H2 | exact H3]].
Defined.

Lemma mount_value_recorded_before_checks_witness :
  let r := MountFileCmdArgParser sample_MAX_MOUNT_NR sample_WHITE_LIST_NUM IsValidChar_spec env_ok
             (args_zero sample_MAX_MOUNT_NR) "/etc/passwd" in
  fst r = CheckFileLegality IsValidChar_spec env_ok "/etc/passwd" (strlen "/etc/passwd")
          && CheckWhiteList sample_WHITE_LIST_NUM "/etc/passwd" /\
  count (files (snd r)) = 1%nat /\
  paths (files (snd r)) !! 0%nat = Some "/etc/passwd" /\
  dirs (snd r) = dirs (args_zero sample_MAX_MOUNT_NR).
Proof.
  apply (proj1 (mount_value_recorded_before_checks sample_MAX_MOUNT_NR sample_WHITE_LIST_NUM
                  IsValidChar_spec env_ok (args_zero sample_MAX_MOUNT_NR) "/etc/passwd"
                  ltac:(apply Nat.ltb_lt; vm_compute; reflexivity))).
  - apply Nat.ltb_lt. vm_compute. reflexivity.
  - apply Nat.ltb_lt. vm_compute. reflexivity.
Defined.
